(** * k8sexec: a shallow embedding of [k8sexec.go] and [throttle.go]

    The Go package runs commands inside containers of a Kubernetes
    cluster and reports a classified outcome.  This development embeds
    the exit-code registry, the execution gateway ([exec], [Exec],
    [ExecWithContext]), the file probes, the pod deduplication
    ([GetUniquePods]) and the token bucket, and states the properties
    of the specification over them.

    Conventions.  A Go [int] is a [Z] (no arithmetic in this package
    comes near the 64-bit range).  A Go [string] is a [string] of bytes.
    A Go [error] interface value is an [option error], [None] being
    [nil].  A [map] is a [gmap].  The cluster, which the package only
    talks to through client-go, is a record of answers carried by the
    [K8SExec] receiver. *)

From Stdlib Require Import ZArith String Ascii List Lia.
From stdpp Require Import gmap strings list pretty.
Import ListNotations.
Open Scope Z_scope.
Open Scope string_scope.

(* ================================================================== *)
(** * Part I: the program *)
(* ================================================================== *)

(** ** Errors (package [errors], [context], [k8s.io/client-go/util/exec]) *)

(** The error values that reach this package.  [CodeExitError] is
    client-go's [exec.CodeExitError{Err, Code}]; it has no [Unwrap]
    method.  [wrapError] is what [fmt.Errorf] builds with [%w]. *)
Inductive error : Type :=
| errorString (s : string)
| DeadlineExceeded
| Canceled
| CodeExitError (Err : error) (Code : Z)
| wrapError (msg : string) (err : error).

(** [err.Error()] *)
Fixpoint err_Error (err : error) : string :=
  match err with
  | errorString s => s
  | DeadlineExceeded => "context deadline exceeded"
  | Canceled => "context canceled"
  | CodeExitError e _ => err_Error e
  | wrapError msg _ => msg
  end.

(** [errors.As(err, &e)] for [e] of type [exec.CodeExitError]: the
    first error of the [Unwrap] chain that has that type. *)
Fixpoint As_chain (err : error) : option (error * Z) :=
  match err with
  | CodeExitError e c => Some (e, c)
  | wrapError _ inner => As_chain inner
  | _ => None
  end.

Definition errors_As_CodeExitError (err : option error) : option (error * Z) :=
  match err with
  | None => None
  | Some e => As_chain e
  end.

(** [errors.Is(err, context.DeadlineExceeded)] *)
Fixpoint Is_chain (err : error) : bool :=
  match err with
  | DeadlineExceeded => true
  | wrapError _ inner => Is_chain inner
  | _ => false
  end.

Definition errors_Is_DeadlineExceeded (err : option error) : bool :=
  match err with
  | None => false
  | Some e => Is_chain e
  end.

(** ** Exit codes *)

(** The constants of the [const] block: the first five are [iota - 2]
    for [iota] from 0 to 4. *)

(** [type ExitCode int] *)
Abbreviation ExitCode := Z (only parsing).

Definition ExecutionTimeOut : ExitCode := 0 - 2.
Definition InternalAppError : ExitCode := 1 - 2.
Definition Success : ExitCode := 2 - 2.
Definition GeneralError : ExitCode := 3 - 2.
Definition IncorrectUsage : ExitCode := 4 - 2.
Definition CommandCannotExecute : ExitCode := 126.
Definition CommandNotFound : ExitCode := 127.
Definition InvalidArgumentToExit : ExitCode := 128.
Definition ScriptTerminatedByControlC : ExitCode := 130.
Definition ExitStatusOutOfRange : ExitCode := 255.
Definition FatalErrorSignal1 : ExitCode := 129.
Definition FatalErrorSignal3 : ExitCode := 131.
Definition FatalErrorSignal4 : ExitCode := 132.
Definition FatalErrorSignal5 : ExitCode := 133.
Definition FatalErrorSignal6 : ExitCode := 134.
Definition FatalErrorSignal7 : ExitCode := 135.
Definition FatalErrorSignal8 : ExitCode := 136.
Definition FatalErrorSignal9 : ExitCode := 137.
Definition FatalErrorSignal10 : ExitCode := 138.
Definition FatalErrorSignal11 : ExitCode := 139.
Definition FatalErrorSignal12 : ExitCode := 140.
Definition FatalErrorSignal13 : ExitCode := 141.
Definition FatalErrorSignal14 : ExitCode := 142.
Definition FatalErrorSignal15 : ExitCode := 143.

(** The entries of the map literal, in the order of the source. *)
Definition exitCodeEntries : list (Z * string) :=
  [ (-1, "Internal app error");
    (0, "Success");
    (1, "General error, unspecified error");
    (2, "Incorrect usage or syntax of the command");
    (126, "Command cannot execute");
    (127, "Command not found");
    (128, "Invalid argument to exit");
    (130, "Script terminated by Control-C (SIGINT)");
    (255, "Exit status out of range");
    (129, "Fatal error signal 1 (SIGHUP)");
    (131, "Fatal error signal 3 (SIGQUIT)");
    (132, "Fatal error signal 4 (SIGILL)");
    (133, "Fatal error signal 5 (SIGTRAP)");
    (134, "Fatal error signal 6 (SIGABRT/SIGIOT)");
    (135, "Fatal error signal 7 (SIGBUS)");
    (136, "Fatal error signal 8 (SIGFPE)");
    (137, "Fatal error signal 9 (SIGKILL)");
    (138, "Fatal error signal 10 (SIGUSR1)");
    (139, "Fatal error signal 11 (SIGSEGV)");
    (140, "Fatal error signal 12 (SIGUSR2)");
    (141, "Fatal error signal 13 (SIGPIPE)");
    (142, "Fatal error signal 14 (SIGALRM)");
    (143, "Fatal error signal 15 (SIGTERM)") ].

Definition exitCodeDescriptions : gmap Z string := list_to_map exitCodeEntries.

(** [fmt.Sprintf("Exit code %d description not found!", code)] *)
Definition notFoundMessage (code : Z) : string :=
  "Exit code " ++ pretty code ++ " description not found!".

Definition GetExitCode (err : option error) : ExitCode * string :=
  match errors_As_CodeExitError err with
  | None => (InternalAppError, "")
  | Some (_, Code) =>
      match exitCodeDescriptions !! Code with
      | None => (Code, notFoundMessage Code)
      | Some _ => (Code, default "" (exitCodeDescriptions !! Code))
      end
  end.

Definition GetExitCodeDescription (code : ExitCode) : string :=
  match exitCodeDescriptions !! code with
  | None => ""
  | Some _ => default "" (exitCodeDescriptions !! code)
  end.

(** ** [strings.Split] and [ExecutionStatus] *)

Definition LF : ascii := "010"%char.

(** [strings.Split(s, sep)] for a separator of one byte, the only use
    the package makes of it: the pieces between consecutive separators,
    one more than there are separators. *)
Fixpoint Split (s : string) (sep : ascii) : list string :=
  match s with
  | EmptyString => [""]
  | String c rest =>
      if Ascii.eqb c sep then "" :: Split rest sep
      else match Split rest sep with
           | piece :: pieces => String c piece :: pieces
           | [] => [String c ""]
           end
  end.

Record ExecutionStatus := {
  Pod : string;
  Container : string;
  RetCode : ExitCode;
  Error : list string;
  Stdout : list string;
  Stderr : list string
}.

Definition NewExecutionStatus (pod container : string) (retCode : ExitCode)
    (error stdout stderr : string) : ExecutionStatus :=
  {| Pod := pod; Container := container; RetCode := retCode;
     Error := Split error LF; Stdout := Split stdout LF; Stderr := Split stderr LF |}.

(** ** The cluster as the package sees it *)

(** Time is counted in nanoseconds, as [time.Duration] does. *)
Definition Second : Z := 1000000000.

(** A [context.Context]: its deadline, if it has one. *)
Record Context := { Deadline : option Z }.

Definition Background : Context := {| Deadline := None |}.

(** The request [exec] builds: the [PodExecOptions] posted to the
    [exec] subresource of a pod. *)
Record Request := {
  req_Namespace : string;
  req_Name : string;
  req_Container : string;
  req_Command : list string;
  req_Stdin : option string;
  req_Stdout : bool;
  req_Stderr : bool;
  req_TTY : bool
}.

(** What the remote side does with a request: [dial] is the error of
    [remotecommand.NewSPDYExecutor], if any; the command needs [takes]
    nanoseconds and ends with the stream error [exit] ([None] for a zero
    exit status); [wrote_out t] and [wrote_err t] are the bytes it has
    written to its standard output and standard error [t] nanoseconds
    after it started. *)
Record Process := {
  dial : option error;
  takes : Z;
  exit : option error;
  wrote_out : Z -> string;
  wrote_err : Z -> string
}.

Record LabelSelector := { MatchLabels : list (string * string) }.
Record Deployment := { deployment_Name : string; deployment_Selector : LabelSelector }.
Record StatefulSet := { statefulSet_Name : string; statefulSet_Selector : LabelSelector }.
Record DaemonSet := { daemonSet_Name : string; daemonSet_Selector : LabelSelector }.
(** [coreV1.Pod]; [Pod] is a field of [ExecutionStatus] here. *)
Record PodT := { Name : string }.
Record ListOptions := { LabelSelector_ : string }.

(** A Go result pair [(value, error)] of which exactly one is set. *)
Inductive result (A : Type) : Type :=
| Ok (a : A)
| Err (e : error).
Arguments Ok {A} a.
Arguments Err {A} e.

(** The answers of the API server.  The three group listings and the
    pod listing take the namespace; the remote execution also depends on
    the time at which the request is made.  A [MatchLabels] map is given
    by its entries in the order in which [range] visits them. *)
Record Clientset := {
  Deployments_List : string -> result (list Deployment);
  StatefulSets_List : string -> result (list StatefulSet);
  DaemonSets_List : string -> result (list DaemonSet);
  Pods_List : string -> ListOptions -> result (list PodT);
  Pods_Exec : Z -> Request -> Process
}.

Record K8SExec := { Clientset_ : Clientset; Namespace : string }.

(** ** The execution gateway *)

(** One remote call, as recorded by the model: when it was issued, under
    which context, and for which request. *)
Record Call := { call_time : Z; call_ctx : Context; call_req : Request }.

(** The state an execution threads: the clock, the two [bytes.Buffer]s
    of the calling function, and the remote calls issued so far. *)
Record State := {
  clock : Z;
  stdout : string;
  stderr : string;
  calls : list Call
}.

Definition M (A : Type) : Type := State -> A * State.

#[global] Instance M_ret : MRet M := fun A a st => (a, st).
#[global] Instance M_bind : MBind M := fun A B f m st => let (a, st') := m st in f a st'.

Definition start (t : Z) : State :=
  {| clock := t; stdout := ""; stderr := ""; calls := [] |}.

(** [var stdout, stderr bytes.Buffer] *)
Definition new_buffers : M unit :=
  fun st => (tt, {| clock := clock st; stdout := ""; stderr := ""; calls := calls st |}).

Definition stdout_String : M string := fun st => (stdout st, st).
Definition stderr_String : M string := fun st => (stderr st, st).

(** [context.WithTimeout(parent, timeout)] *)
Definition WithTimeout (parent : Context) (timeout : Z) : M Context :=
  fun st =>
    let d := clock st + timeout in
    ({| Deadline := Some (match Deadline parent with
                          | Some d0 => Z.min d0 d
                          | None => d
                          end) |}, st).

Definition record_call (ctx : Context) (req : Request) : M unit :=
  fun st => (tt, {| clock := clock st; stdout := stdout st; stderr := stderr st;
                    calls := calls st ++ [{| call_time := clock st; call_ctx := ctx;
                                             call_req := req |}] |}).

(** The stream runs for [t] nanoseconds and ends with [err]. *)
Definition stream_for (p : Process) (t : Z) (err : option error) : M (option error) :=
  fun st => (err, {| clock := clock st + t;
                     stdout := stdout st ++ wrote_out p t;
                     stderr := stderr st ++ wrote_err p t;
                     calls := calls st |}).

(** [executor.StreamWithContext(ctx, ...)]: the stream ends when the
    command does, or when the deadline of [ctx] strikes, whichever comes
    first; in the second case the error is [ctx.Err()] and the buffers
    keep what had been written. *)
Definition StreamWithContext (ctx : Context) (p : Process) : M (option error) :=
  fun st =>
    let t := Z.max 0 (takes p) in
    match Deadline ctx with
    | None => stream_for p t (exit p) st
    | Some d =>
        if (clock st + t <=? d)%Z then stream_for p t (exit p) st
        else stream_for p (Z.max 0 (d - clock st)) (Some DeadlineExceeded) st
    end.

(** The request [exec] posts: every caller passes both buffers, so
    [Stdout] and [Stderr] are always asked for. *)
Definition execRequest (k8s : K8SExec) (podName containerName : string) (cmd : list string)
    (stdin : option string) (tty : bool) : Request :=
  {| req_Namespace := Namespace k8s; req_Name := podName;
     req_Container := containerName; req_Command := cmd;
     req_Stdin := stdin; req_Stdout := true; req_Stderr := true;
     req_TTY := tty |}.

Definition exec (k8s : K8SExec) (ctx : Context) (podName containerName : string)
    (cmd : list string) (stdin : option string) (tty : bool) : M (ExitCode * option error) :=
  let req := execRequest k8s podName containerName cmd stdin tty in
  _ ← record_call ctx req;
  p ← (fun st => (Pods_Exec (Clientset_ k8s) (clock st) req, st));
  match dial p with
  | Some err => mret (InternalAppError, Some err)
  | None =>
      err ← StreamWithContext ctx p;
      match err with
      | Some e =>
          match errors_As_CodeExitError (Some e) with
          | Some (inner, Code) => mret (Code, Some (CodeExitError inner Code))
          | None => mret (InternalAppError, Some e)
          end
      | None => mret (Success, None)
      end
  end.

Definition Exec (k8s : K8SExec) (podName containerName : string) (args : list string)
    (stdin : option string) (timeout : Z) : M ExecutionStatus :=
  _ ← new_buffers;
  ctx ← WithTimeout Background timeout;
  '(retCode, err) ← exec k8s ctx podName containerName args stdin false;
  let errMessage := match err with Some e => err_Error e | None => "" end in
  let retCode := if errors_Is_DeadlineExceeded err then ExecutionTimeOut else retCode in
  out ← stdout_String;
  errOut ← stderr_String;
  mret (NewExecutionStatus podName containerName retCode errMessage out errOut).

Definition ExecWithContext (k8s : K8SExec) (ctx : Context) (podName containerName : string)
    (args : list string) (stdin : option string) : M ExecutionStatus :=
  _ ← new_buffers;
  '(retCode, err) ← exec k8s ctx podName containerName args stdin false;
  let errMessage := match err with Some e => err_Error e | None => "" end in
  out ← stdout_String;
  errOut ← stderr_String;
  mret (NewExecutionStatus podName containerName retCode errMessage out errOut).

(** ** The file probes *)

Definition DQ : ascii := "034"%char.

(** [fmt.Sprintf] of the read loop, whose text quotes [$line]. *)
Definition readLoop (filePath : string) : string :=
  "while IFS= read -r line; do echo " ++ String DQ "$line" ++ String DQ "; done < '"
    ++ filePath ++ "'".

Definition ReadFile (k8s : K8SExec) (podName containerName filePath : string)
    : M (string * option error) :=
  _ ← new_buffers;
  ctx ← WithTimeout Background (5 * Second);
  '(retCode, err) ← exec k8s ctx podName containerName ["cat"; filePath] None false;
  '(retCode, err) ← (if decide (retCode ≠ Success)
                     then exec k8s ctx podName containerName ["sed"; ""; filePath] None false
                     else mret (retCode, err));
  '(retCode, err) ← (if decide (retCode ≠ Success)
                     then exec k8s ctx podName containerName ["tail"; "-n"; "+1"; filePath]
                            None false
                     else mret (retCode, err));
  '(retCode, err) ← (if decide (retCode ≠ Success)
                     then exec k8s ctx podName containerName ["sh"; "-c"; readLoop filePath]
                            None false
                     else mret (retCode, err));
  out ← stdout_String;
  mret (out, err).

(** [s[i]] as a byte; the callers check the length first. *)
Definition byte_at (s : string) (i : nat) : Z :=
  match String.get i s with
  | Some c => Z.of_N (N_of_ascii c)
  | None => 0
  end.

(** [int(b - '0')] on bytes: the subtraction wraps around at 256. *)
Definition digit_of (b : Z) : Z := (b - 48) mod 256.

Definition readBit : Z := 4.

Definition CheckIfFilePathIsReadable (k8s : K8SExec) (podName containerName filePath : string)
    : M bool :=
  _ ← new_buffers;
  ctx ← WithTimeout Background (5 * Second);
  '(retCode, _) ← exec k8s ctx podName containerName ["stat"; "-c"; "%a"; filePath] None false;
  if decide (retCode ≠ Success) then
    '(retCode, _) ← exec k8s ctx podName containerName
                      ["sh"; "-c"; "test -r '" ++ filePath ++ "'"] None false;
    mret (bool_decide (retCode = Success))
  else
    permStr ← stdout_String;
    if (3 <=? String.length permStr)%nat then
      let permStr := if (String.length permStr =? 4)%nat
                     then String.substring 1 (String.length permStr - 1) permStr
                     else permStr in
      let ownerPerm := digit_of (byte_at permStr 0) in
      let groupPerm := digit_of (byte_at permStr 1) in
      let othersPerm := digit_of (byte_at permStr 2) in
      mret (negb (Z.land ownerPerm readBit =? 0)%Z
            || negb (Z.land groupPerm readBit =? 0)%Z
            || negb (Z.land othersPerm readBit =? 0)%Z)
    else mret false.

Definition CheckIfFilePathExists (k8s : K8SExec) (podName containerName filePath : string)
    : M bool :=
  _ ← new_buffers;
  ctx ← WithTimeout Background (5 * Second);
  '(retCode, _) ← exec k8s ctx podName containerName ["stat"; filePath] None false;
  '(retCode, _) ← (if decide (retCode ≠ Success)
                   then exec k8s ctx podName containerName
                          ["sh"; "-c"; "[ -f '" ++ filePath ++ "' ]"] None false
                   else mret (retCode, None));
  mret (bool_decide (retCode = Success)).

Definition CheckUtilInContainer (k8s : K8SExec) (podName containerName util : string)
    : M bool :=
  _ ← new_buffers;
  ctx ← WithTimeout Background (5 * Second);
  '(retCode, _) ← exec k8s ctx podName containerName [util] None false;
  mret (bool_decide (retCode ≠ CommandNotFound)
        && bool_decide (retCode ≠ CommandCannotExecute)
        && bool_decide (retCode ≠ InternalAppError)).

(** ** Listing and deduplicating pods *)

Definition GetPods (k8s : K8SExec) (options : ListOptions) : result (list PodT) :=
  Pods_List (Clientset_ k8s) (Namespace k8s) options.

Definition GetDeployments (k8s : K8SExec) : result (list Deployment) :=
  Deployments_List (Clientset_ k8s) (Namespace k8s).

Definition GetStatefulSets (k8s : K8SExec) : result (list StatefulSet) :=
  StatefulSets_List (Clientset_ k8s) (Namespace k8s).

Definition GetDaemonSets (k8s : K8SExec) : result (list DaemonSet) :=
  DaemonSets_List (Clientset_ k8s) (Namespace k8s).

Definition mapToLabelSelector (labels : list (string * string)) : string :=
  let selectorParts :=
    fold_left (fun parts kv => parts ++ [(fst kv ++ "=" ++ snd kv)%string])%list labels [] in
  String.concat "," selectorParts.

(** [for _, pod := range pods { groupPods[pod.Name]++ }] *)
Definition countPods (pods : list PodT) (groupPods : gmap string Z) : gmap string Z :=
  fold_left (fun m pod => <[Name pod := default 0 (m !! Name pod) + 1]> m) pods groupPods.

(** The body of the loop over the groups of one kind, which the source
    writes out three times: [acc] is [uniquePods] and the membership map
    of the kind. *)
Definition scanGroup (k8s : K8SExec) (acc : list PodT * gmap string Z) (selector : LabelSelector)
    : list PodT * gmap string Z :=
  let options := {| LabelSelector_ := mapToLabelSelector (MatchLabels selector) |} in
  match GetPods k8s options with
  | Err _ => acc
  | Ok pods =>
      let uniquePods := match pods with
                        | pod :: _ => (fst acc ++ [pod])%list
                        | [] => fst acc
                        end in
      (uniquePods, countPods pods (snd acc))
  end.

Definition scanGroups (k8s : K8SExec) (selectors : list LabelSelector) (uniquePods : list PodT)
    : list PodT * gmap string Z :=
  fold_left (scanGroup k8s) selectors (uniquePods, ∅).

(** The last loop: a pod of the full listing is appended unless its name
    is a key of one of the three membership maps. *)
Definition appendRemainder (deploymentPods statefulSetsPods daemonSetsPods : gmap string Z)
    (items uniquePods : list PodT) : list PodT :=
  fold_left (fun uniquePods pod =>
               match deploymentPods !! Name pod with
               | Some _ => uniquePods
               | None =>
                   match statefulSetsPods !! Name pod with
                   | Some _ => uniquePods
                   | None =>
                       match daemonSetsPods !! Name pod with
                       | Some _ => uniquePods
                       | None => (uniquePods ++ [pod])%list
                       end
                   end
               end) items uniquePods.

Definition GetUniquePods (k8s : K8SExec) : Z * list PodT * option error :=
  let uniquePods : list PodT := [] in
  match GetDeployments k8s with
  | Err err => (0, [], Some err)
  | Ok deployments =>
      let '(uniquePods, deploymentPods) :=
        scanGroups k8s (map deployment_Selector deployments) uniquePods in
      match GetStatefulSets k8s with
      | Err err => (0, [], Some err)
      | Ok statefulSets =>
          let '(uniquePods, statefulSetsPods) :=
            scanGroups k8s (map statefulSet_Selector statefulSets) uniquePods in
          match GetDaemonSets k8s with
          | Err err => (0, [], Some err)
          | Ok daemonSets =>
              let '(uniquePods, daemonSetsPods) :=
                scanGroups k8s (map daemonSet_Selector daemonSets) uniquePods in
              match Pods_List (Clientset_ k8s) (Namespace k8s) {| LabelSelector_ := "" |} with
              | Err err => (0, [], Some err)
              | Ok items =>
                  (Z.of_nat (length items),
                   appendRemainder deploymentPods statefulSetsPods daemonSetsPods
                     items uniquePods,
                   None)
              end
          end
      end
  end.

(** ** The token bucket ([throttle.go]) *)

(** A buffered channel of [struct{}]: only its length and capacity
    matter. *)
Record chan := { len : Z; cap : Z }.

(** [make(chan struct{}, size)]; a negative size panics. *)
Definition make_chan (size : Z) : option chan :=
  if (size <? 0)%Z then None else Some {| len := 0; cap := size |}.

(** [c <- struct{}{}]: [None] when the send would block. *)
Definition send (c : chan) : option chan :=
  if (len c <? cap c)%Z then Some {| len := len c + 1; cap := cap c |} else None.

(** [<-c]: [None] when the receive would block. *)
Definition recv (c : chan) : option chan :=
  if (0 <? len c)%Z then Some {| len := len c - 1; cap := cap c |} else None.

(** Where the refill goroutine stands: not yet started; waiting for the
    next tick; holding [mu] before the length test; holding [mu] with
    the test passed, about to send; holding [mu] about to unlock; or
    dead because [time.NewTicker] or the division panicked, which ends
    the whole program. *)
Inductive refill :=
| Spawned
| Ticking
| Locked
| Sending
| Unlocking
| Panicked.

(** A bucket with its goroutine: [tokens] is the channel, [rate_] the
    rate the goroutine's closure captured, [goroutine] where the
    goroutine stands.  Only the goroutine ever takes [mu], so the mutex
    is held exactly in [Locked], [Sending] and [Unlocking]. *)
Record TokenBucket := { tokens : chan; rate_ : Z; goroutine : refill }.

(** [for i := 0; i < burst; i++ { bucket.tokens <- struct{}{} }], with
    the number of iterations left as the structural argument. *)
Fixpoint fill (n : nat) (c : chan) : option chan :=
  match n with
  | O => Some c
  | S n' => match send c with
            | Some c' => fill n' c'
            | None => None
            end
  end.

(** [NewTokenBucket]: [None] when [make] panics. *)
Definition NewTokenBucket (rate burst : Z) : option TokenBucket :=
  match make_chan burst with
  | None => None
  | Some c =>
      match fill (Z.to_nat burst) c with
      | None => None
      | Some c' => Some {| tokens := c'; rate_ := rate; goroutine := Spawned |}
      end
  end.

(** [time.Second / time.Duration(rate)] is a positive duration. *)
Definition ticker_ok (rate : Z) : bool := (0 <? rate)%Z && (rate <=? Second)%Z.

(** What can happen next to a bucket.  [Wait] is a caller's [<-tb.tokens]
    completing; the other events are the steps of the refill goroutine. *)
Inductive event := Wait | Start | Tick | Test | Refill | Unlock.

Inductive step : TokenBucket -> event -> TokenBucket -> Prop :=
| step_Wait tb c :
    goroutine tb ≠ Panicked ->
    recv (tokens tb) = Some c ->
    step tb Wait {| tokens := c; rate_ := rate_ tb; goroutine := goroutine tb |}
| step_Start tb :
    goroutine tb = Spawned ->
    step tb Start {| tokens := tokens tb; rate_ := rate_ tb;
                     goroutine := if ticker_ok (rate_ tb) then Ticking else Panicked |}
| step_Tick tb :
    goroutine tb = Ticking ->
    step tb Tick {| tokens := tokens tb; rate_ := rate_ tb; goroutine := Locked |}
| step_Test tb :
    goroutine tb = Locked ->
    step tb Test {| tokens := tokens tb; rate_ := rate_ tb;
                    goroutine := if (len (tokens tb) <? cap (tokens tb))%Z
                                 then Sending else Unlocking |}
| step_Refill tb c :
    goroutine tb = Sending ->
    send (tokens tb) = Some c ->
    step tb Refill {| tokens := c; rate_ := rate_ tb; goroutine := Unlocking |}
| step_Unlock tb :
    goroutine tb = Unlocking ->
    step tb Unlock {| tokens := tokens tb; rate_ := rate_ tb; goroutine := Ticking |}.

(** The states a bucket can be in after any interleaving of events. *)
Inductive reachable (tb0 : TokenBucket) : TokenBucket -> Prop :=
| reach_init : reachable tb0 tb0
| reach_step tb e tb' : reachable tb0 tb -> step tb e tb' -> reachable tb0 tb'.

(** ** Vocabulary of the statements *)

(** [carries err N]: the first error of the [Unwrap] chain of [err] that
    is a process-exit failure carries the code [N]. *)
Inductive carries : error -> Z -> Prop :=
| carries_here inner N : carries (CodeExitError inner N) N
| carries_wrapped msg err N : carries err N -> carries (wrapError msg err) N.

(** The codes the table documents. *)
Definition documentedCodes : list Z := exitCodeEntries.*1.

(** [strings.Join(lines, sep)] for a separator of one byte. *)
Fixpoint Join (lines : list string) (sep : ascii) : string :=
  match lines with
  | [] => ""
  | [line] => line
  | line :: rest => line ++ String sep (Join rest sep)
  end.

(** The byte [c] occurs in [s]. *)
Fixpoint occurs (c : ascii) (s : string) : bool :=
  match s with
  | EmptyString => false
  | String c' rest => Ascii.eqb c' c || occurs c rest
  end.

(** How [exec] classifies the error a stream ended with. *)
Definition classify (err : option error) : ExitCode * option error :=
  match err with
  | None => (Success, None)
  | Some e =>
      match As_chain e with
      | Some (inner, Code) => (Code, Some (CodeExitError inner Code))
      | None => (InternalAppError, Some e)
      end
  end.

(** ** Sample clusters *)

Definition noOutput : Z -> string := fun _ => "".

(** A cluster with no groups and no pods, whose containers answer
    requests as [answer] says. *)
Definition clusterOf (answer : Z -> Request -> Process) : K8SExec :=
  {| Clientset_ := {| Deployments_List := fun _ => Ok [];
                      StatefulSets_List := fun _ => Ok [];
                      DaemonSets_List := fun _ => Ok [];
                      Pods_List := fun _ _ => Ok [];
                      Pods_Exec := answer |};
     Namespace := "default" |}.

(** Every command prints [partial] at once and then hangs for a minute. *)
Definition hanging : K8SExec :=
  clusterOf (fun _ _ => {| dial := None; takes := 60 * Second; exit := None;
                           wrote_out := fun _ => "partial"; wrote_err := noOutput |}).

(** Every command ends at once with exit status [code]. *)
Definition exiting (code : Z) : K8SExec :=
  clusterOf (fun _ _ => {| dial := None; takes := 0;
                           exit := Some (CodeExitError (errorString "command terminated") code);
                           wrote_out := noOutput; wrote_err := noOutput |}).

Definition firstWord (req : Request) : string :=
  match req_Command req with
  | word :: _ => word
  | [] => ""
  end.

(** [cat] prints [he] and is then killed, one second in; every other
    command prints [hello] and succeeds. *)
Definition catKilled : K8SExec :=
  clusterOf (fun _ req =>
    if String.eqb (firstWord req) "cat"
    then {| dial := None; takes := Second;
            exit := Some (CodeExitError (errorString "command terminated") 137);
            wrote_out := fun _ => "he"; wrote_err := noOutput |}
    else {| dial := None; takes := Second; exit := None;
            wrote_out := fun _ => "hello"; wrote_err := noOutput |}).

(** A minimal image: [cat], [sed] and [tail] are missing (status 127)
    and write nothing; the shell works and prints the file. *)
Definition shellOnly : K8SExec :=
  clusterOf (fun _ req =>
    if String.eqb (firstWord req) "sh"
    then {| dial := None; takes := Second; exit := None;
            wrote_out := fun _ => "hello"; wrote_err := noOutput |}
    else {| dial := None; takes := Second;
            exit := Some (CodeExitError (errorString "command terminated") 127);
            wrote_out := noOutput; wrote_err := fun _ => "not found" |}).

(** ** Reading a trace of remote calls *)

Definition callProcess (k8s : K8SExec) (c : Call) : Process :=
  Pods_Exec (Clientset_ k8s) (call_time c) (call_req c).

(** The stream of the call [c], run on empty buffers. *)
Definition callStream (k8s : K8SExec) (c : Call) : option error * State :=
  StreamWithContext (call_ctx c) (callProcess k8s c) (start (call_time c)).

(** What [exec] returned for the call [c]. *)
Definition callResult (k8s : K8SExec) (c : Call) : ExitCode * option error :=
  match dial (callProcess k8s c) with
  | Some err => (InternalAppError, Some err)
  | None => classify (callStream k8s c).1
  end.

(** What the call [c] wrote to the standard-output buffer. *)
Definition callOutput (k8s : K8SExec) (c : Call) : string :=
  match dial (callProcess k8s c) with
  | Some _ => ""
  | None => stdout (callStream k8s c).2
  end.

(** The four commands of [ReadFile], in the order of the source. *)
Definition readAttempts (filePath : string) : list (list string) :=
  [ ["cat"; filePath];
    ["sed"; ""; filePath];
    ["tail"; "-n"; "+1"; filePath];
    ["sh"; "-c"; readLoop filePath] ].

Definition commands (st : State) : list (list string) :=
  map (fun c => req_Command (call_req c)) (calls st).

(** The claim that each attempt gets a deadline of its own, five
    seconds after the attempt starts. *)
Definition ownDeadline (c : Call) : Prop :=
  Deadline (call_ctx c) = Some (call_time c + 5 * Second).

(** What the calls [cs] wrote to the standard-output buffer, one after
    the other. *)
Definition written (k8s : K8SExec) (cs : list Call) : string :=
  fold_left (fun buffer c => buffer ++ callOutput k8s c) cs "".

(** ** Reading a deduplication *)

Definition selectorOptions (selector : LabelSelector) : ListOptions :=
  {| LabelSelector_ := mapToLabelSelector (MatchLabels selector) |}.

(** The pods the listing of a group's selector returned; none when the
    listing failed. *)
Definition matched (k8s : K8SExec) (selector : LabelSelector) : list PodT :=
  match GetPods k8s (selectorOptions selector) with
  | Ok pods => pods
  | Err _ => []
  end.

(** The first match of each group that has one, in the order of the
    groups. *)
Definition representatives (k8s : K8SExec) (selectors : list LabelSelector) : list PodT :=
  flat_map (fun selector => take 1 (matched k8s selector)) selectors.

(** The names of all the pods matched by some group. *)
Definition members (k8s : K8SExec) (selectors : list LabelSelector) : list string :=
  flat_map (fun selector => map Name (matched k8s selector)) selectors.

Definition pod (name : string) : PodT := {| Name := name |}.

Definition selectorOf (key value : string) : LabelSelector :=
  {| MatchLabels := [(key, value)] |}.

(** Two deployments whose selectors match three pods each, [a-shared]
    being matched by both, and one pod outside any group.  Listings are
    in the order of the names, as the API server returns them. *)
Definition overlapping : K8SExec :=
  {| Clientset_ :=
       {| Deployments_List := fun _ =>
            Ok [ {| deployment_Name := "web"; deployment_Selector := selectorOf "app" "web" |};
                 {| deployment_Name := "front";
                    deployment_Selector := selectorOf "tier" "front" |} ];
          StatefulSets_List := fun _ => Ok [];
          DaemonSets_List := fun _ => Ok [];
          Pods_List := fun _ options =>
            if String.eqb (LabelSelector_ options) "app=web"
            then Ok [pod "a-shared"; pod "web-1"; pod "web-2"]
            else if String.eqb (LabelSelector_ options) "tier=front"
            then Ok [pod "a-shared"; pod "front-1"; pod "front-2"]
            else if String.eqb (LabelSelector_ options) ""
            then Ok [pod "a-shared"; pod "front-1"; pod "front-2"; pod "solo";
                     pod "web-1"; pod "web-2"]
            else Ok [];
          Pods_Exec := fun _ _ => {| dial := None; takes := 0; exit := None;
                                     wrote_out := noOutput; wrote_err := noOutput |} |};
     Namespace := "default" |}.

(** The listing of the pods of the first deployment fails; the second
    deployment has two pods; a stateful set matches no pod. *)
Definition flaky : K8SExec :=
  {| Clientset_ :=
       {| Deployments_List := fun _ =>
            Ok [ {| deployment_Name := "broken";
                    deployment_Selector := selectorOf "app" "broken" |};
                 {| deployment_Name := "web"; deployment_Selector := selectorOf "app" "web" |} ];
          StatefulSets_List := fun _ =>
            Ok [ {| statefulSet_Name := "db"; statefulSet_Selector := selectorOf "app" "db" |} ];
          DaemonSets_List := fun _ => Ok [];
          Pods_List := fun _ options =>
            if String.eqb (LabelSelector_ options) "app=broken"
            then Err (errorString "etcdserver: request timed out")
            else if String.eqb (LabelSelector_ options) "app=web"
            then Ok [pod "web-1"; pod "web-2"]
            else if String.eqb (LabelSelector_ options) ""
            then Ok [pod "solo"; pod "web-1"; pod "web-2"]
            else Ok [];
          Pods_Exec := fun _ _ => {| dial := None; takes := 0; exit := None;
                                     wrote_out := noOutput; wrote_err := noOutput |} |};
     Namespace := "default" |}.

(** ** Reading a bucket *)

(** What every step keeps: the count is between 0 and the capacity, and
    a goroutine that has passed the length test still has room. *)
Definition bucket_ok (burst : Z) (tb : TokenBucket) : Prop :=
  cap (tokens tb) = burst /\
  0 <= len (tokens tb) <= burst /\
  (goroutine tb = Sending -> len (tokens tb) < burst).

(** ** Listing the images ([GetUniqueImages]) *)

(** A container of a pod's spec: its name and its image. *)
Record ContainerT := { container_Name : string; Image : string }.

(** [slices.Contains(images, image)] *)
Definition slices_Contains (images : list string) (image : string) : bool :=
  existsb (fun seen => String.eqb seen image) images.

(** The inner loop: an image is appended unless it is already there. *)
Definition addImages (images : list string) (containers : list ContainerT) : list string :=
  fold_left (fun images container =>
               if slices_Contains images (Image container) then images
               else (images ++ [Image container])%list)
            containers images.

(** [GetUniqueImages].  A [PodT] carries only the pod's name, so the
    containers of a pod's spec, [pod.Spec.Containers], are read through
    [Spec_Containers]. *)
Definition GetUniqueImages (k8s : K8SExec) (Spec_Containers : PodT -> list ContainerT)
    : Z * list string * option error :=
  match Pods_List (Clientset_ k8s) (Namespace k8s) {| LabelSelector_ := "" |} with
  | Err err => (0, [], Some err)
  | Ok items =>
      let '(containersCount, images) :=
        fold_left (fun acc pod =>
                     (acc.1 + Z.of_nat (length (Spec_Containers pod)),
                      addImages acc.2 (Spec_Containers pod)))
                  items (0, []) in
      (containersCount, images, None)
  end.

(** ** More vocabulary and sample clusters *)

(** All the images of the containers of [items], in the order of the
    listing. *)
Definition allImages (Spec_Containers : PodT -> list ContainerT) (items : list PodT)
    : list string :=
  flat_map (fun p => map Image (Spec_Containers p)) items.

(** The [key=value] text of one label. *)
Definition labelText (kv : string * string) : string := kv.1 ++ "=" ++ kv.2.

Definition comma : ascii := ","%char.

(** The character of the octal digit [d]. *)
Definition digitChar (d : Z) : ascii := ascii_of_N (Z.to_N (48 + d)).

(** The two commands of [CheckIfFilePathExists] and of
    [CheckIfFilePathIsReadable], in the order of the source. *)
Definition existsAttempts (filePath : string) : list (list string) :=
  [ ["stat"; filePath];
    ["sh"; "-c"; "[ -f '" ++ filePath ++ "' ]"] ].

Definition readableAttempts (filePath : string) : list (list string) :=
  [ ["stat"; "-c"; "%a"; filePath];
    ["sh"; "-c"; "test -r '" ++ filePath ++ "'"] ].

(** Every command prints [hello] and succeeds after a second. *)
Definition healthy : K8SExec :=
  clusterOf (fun _ _ => {| dial := None; takes := Second; exit := None;
                           wrote_out := fun _ => "hello"; wrote_err := noOutput |}).

(** No connection to the pod can be set up. *)
Definition unreachable : K8SExec :=
  clusterOf (fun _ _ => {| dial := Some (errorString "dial tcp: connection refused");
                           takes := 0; exit := None;
                           wrote_out := noOutput; wrote_err := noOutput |}).

(** [stat -c %a] prints the mode 400 followed by a newline; every other
    command fails. *)
Definition mode400 : K8SExec :=
  clusterOf (fun _ req =>
    if String.eqb (firstWord req) "stat"
    then {| dial := None; takes := Second; exit := None;
            wrote_out := fun _ => String "4" (String "0" (String "0" (String LF "")));
            wrote_err := noOutput |}
    else {| dial := None; takes := Second;
            exit := Some (CodeExitError (errorString "command terminated") 1);
            wrote_out := noOutput; wrote_err := noOutput |}).

(** A deployment whose selector has no [matchLabels] (it selects by
    expressions only), next to the pods of another workload. *)
Definition catchAll : K8SExec :=
  {| Clientset_ :=
       {| Deployments_List := fun _ =>
            Ok [ {| deployment_Name := "by-expression";
                    deployment_Selector := {| MatchLabels := [] |} |} ];
          StatefulSets_List := fun _ => Ok [];
          DaemonSets_List := fun _ => Ok [];
          Pods_List := fun _ options =>
            if String.eqb (LabelSelector_ options) ""
            then Ok [pod "db-0"; pod "solo"; pod "web-1"]
            else Ok [];
          Pods_Exec := fun _ _ => {| dial := None; takes := 0; exit := None;
                                     wrote_out := noOutput; wrote_err := noOutput |} |};
     Namespace := "default" |}.

(** The containers of the pods of [flaky]: the two [web] pods run the
    same two images, [solo] runs one of them. *)
Definition flakySpec (p : PodT) : list ContainerT :=
  if String.eqb (Name p) "solo"
  then [ {| container_Name := "main"; Image := "nginx:1.25" |} ]
  else [ {| container_Name := "main"; Image := "nginx:1.25" |};
         {| container_Name := "sidecar"; Image := "envoy:1.29" |} ].

(** ** Runs of a bucket *)

(** [run tb events tb']: the events happen one after the other, from
    [tb] to [tb']. *)
Inductive run : TokenBucket -> list event -> TokenBucket -> Prop :=
| run_nil tb : run tb [] tb
| run_cons tb e tb' events tb'' :
    step tb e tb' -> run tb' events tb'' -> run tb (e :: events) tb''.

#[global] Instance event_eq_dec : EqDecision event.
Proof. solve_decision. Defined.

(** How often the event [e] occurs in [events]. *)
Definition occurrences (e : event) (events : list event) : Z :=
  Z.of_nat (length (filter (fun e' => e' = e) events)).

(** The loop of [GetUniqueImages] over a flat list of images: each one
    is appended to [images] unless it is there. *)
Definition appendNew (images : list string) (more : list string) : list string :=
  fold_left (fun images image =>
               if slices_Contains images image then images
               else (images ++ [image])%list)
            more images.

(* ================================================================== *)
(** * Part II: the properties *)
(* ================================================================== *)

(** ** The exit-code registry *)

Lemma documentedCodes_NoDup : NoDup documentedCodes.
Proof. apply (bool_decide_unpack _). vm_compute. reflexivity. Qed.

Lemma lookup_description (N : Z) (d : string) :
  exitCodeDescriptions !! N = Some d <-> (N, d) ∈ exitCodeEntries.
Proof.
  unfold exitCodeDescriptions. symmetry.
  apply elem_of_list_to_map, documentedCodes_NoDup.
Qed.

Lemma lookup_undocumented (N : Z) :
  exitCodeDescriptions !! N = None <-> N ∉ documentedCodes.
Proof.
  unfold exitCodeDescriptions, documentedCodes. symmetry.
  apply not_elem_of_list_to_map.
Qed.

Lemma As_chain_carries (err : error) (N : Z) :
  carries err N <-> exists inner, As_chain err = Some (inner, N).
Proof.
  split.
  - induction 1 as [inner N | msg err N _ IH]; simpl; eauto.
  - intros [inner H]. induction err as [| | | e _ c | msg e IH]; simpl in H; try discriminate.
    + injection H as _ ->. constructor.
    + constructor. auto.
Qed.

Lemma As_chain_None (err : error) :
  As_chain err = None <-> forall N, ~ carries err N.
Proof.
  split.
  - intros H N HN. apply As_chain_carries in HN as [inner HN]. congruence.
  - intros H. destruct (As_chain err) as [[inner N]|] eqn:E; [|reflexivity].
    exfalso. apply (H N), As_chain_carries. eauto.
Qed.

(** C2. An error that wraps a process-exit failure with code [N] is
    classified as [N] with the description the table gives for [N], or
    with the text [Exit code N description not found!] when the table
    has none; 137 and 200 are instances.  An error that wraps no
    process-exit failure, [nil] included, is classified as
    [InternalAppError] with an empty description. *)
Theorem GetExitCode_classifies :
  (forall err N d, carries err N -> (N, d) ∈ exitCodeEntries ->
     GetExitCode (Some err) = (N, d)) /\
  (forall err N, carries err N -> N ∉ documentedCodes ->
     GetExitCode (Some err) = (N, "Exit code " ++ pretty N ++ " description not found!")) /\
  (forall inner, GetExitCode (Some (CodeExitError inner 137))
                 = (137, "Fatal error signal 9 (SIGKILL)")) /\
  (forall inner, GetExitCode (Some (CodeExitError inner 200))
                 = (200, "Exit code 200 description not found!")) /\
  (forall err, (forall N, ~ carries err N) -> GetExitCode (Some err) = (InternalAppError, "")) /\
  GetExitCode None = (InternalAppError, "").
Proof.
  split_and!.
  - intros err N d [inner Has]%As_chain_carries Hd%lookup_description.
    unfold GetExitCode, errors_As_CodeExitError. rewrite Has, Hd. reflexivity.
  - intros err N [inner Has]%As_chain_carries Hd%lookup_undocumented.
    unfold GetExitCode, errors_As_CodeExitError. rewrite Has, Hd. reflexivity.
  - intros inner. vm_compute. reflexivity.
  - intros inner. vm_compute. reflexivity.
  - intros err Hno%As_chain_None.
    unfold GetExitCode, errors_As_CodeExitError. rewrite Hno. reflexivity.
  - reflexivity.
Qed.

(** The classification at a wrapped exit failure with code 143. *)
Lemma GetExitCode_classifies_witness :
  GetExitCode (Some (wrapError "exec failed" (CodeExitError (errorString "exit") 143)))
  = (143, "Fatal error signal 15 (SIGTERM)").
Proof.
  apply (proj1 GetExitCode_classifies).
  - constructor. constructor.
  - apply list_elem_of_In. vm_compute. tauto.
Defined.

Lemma descriptions_not_empty :
  Forall (fun entry : Z * string => entry.2 <> "") exitCodeEntries.
Proof. unfold exitCodeEntries. repeat constructor; discriminate. Qed.

Lemma GetExitCodeDescription_lookup (code : Z) :
  GetExitCodeDescription code = default "" (exitCodeDescriptions !! code).
Proof.
  unfold GetExitCodeDescription.
  destruct (exitCodeDescriptions !! code) as [d|] eqn:E; rewrite ?E; reflexivity.
Qed.

(** C6, as the code has it.  The description is non-empty exactly for
    the 23 codes of the table, which are -1 and 22 codes of [0,255]:
    0, 1, 2, 126 to 143 and 255.  Every other code has the empty
    description, 200 and 50 among them; code 1 is documented. *)
Theorem GetExitCodeDescription_documented :
  (forall code, GetExitCodeDescription code <> "" <-> code ∈ documentedCodes) /\
  documentedCodes
  = [-1; 0; 1; 2; 126; 127; 128; 130; 255; 129; 131; 132; 133; 134; 135; 136; 137;
     138; 139; 140; 141; 142; 143] /\
  NoDup documentedCodes /\
  length documentedCodes = 23%nat /\
  length (filter (fun c => 0 <= c <= 255) documentedCodes) = 22%nat /\
  GetExitCodeDescription 200 = "" /\
  GetExitCodeDescription 50 = "" /\
  GetExitCodeDescription 1 = "General error, unspecified error" /\
  GetExitCodeDescription 0 = "Success".
Proof.
  split_and!; try (vm_compute; reflexivity).
  - intros code. rewrite GetExitCodeDescription_lookup. split.
    + intros Hne. destruct (exitCodeDescriptions !! code) as [d|] eqn:E.
      * apply lookup_description in E. unfold documentedCodes.
        apply list_elem_of_fmap. exists (code, d). auto.
      * contradiction.
    + intros Hin. unfold documentedCodes in Hin.
      apply list_elem_of_fmap in Hin as [[c d] [-> Hin]]. cbn [fst].
      pose proof (proj1 (Forall_forall _ _) descriptions_not_empty _ Hin) as Hd.
      apply lookup_description in Hin. rewrite Hin. exact Hd.
  - exact documentedCodes_NoDup.
Qed.

(** C6, as stated, fails at code 1, which the table documents, and on
    the count: 22 codes of [0,255] have a description, not 20. *)
Lemma GetExitCodeDescription_one_documented :
  GetExitCodeDescription 1 <> "" /\
  length (filter (fun c => GetExitCodeDescription c <> "") (seqZ 0 256)) = 22%nat.
Proof. split; [vm_compute; discriminate | vm_compute; reflexivity]. Qed.

(** ** Splitting into lines *)

Lemma Split_not_nil (s : string) (sep : ascii) : Split s sep <> [].
Proof.
  destruct s as [|c rest]; simpl; [discriminate|].
  destruct (Ascii.eqb c sep); [discriminate|].
  destruct (Split rest sep); discriminate.
Qed.

Lemma Join_cons_nonempty (c : ascii) (piece : string) (pieces : list string) (sep : ascii) :
  Join (String c piece :: pieces) sep = String c (Join (piece :: pieces) sep).
Proof. destruct pieces; reflexivity. Qed.

Lemma Join_Split (s : string) (sep : ascii) : Join (Split s sep) sep = s.
Proof.
  induction s as [|c rest IH]; [reflexivity|].
  simpl. destruct (Ascii.eqb_spec c sep) as [->|Hne].
  - pose proof (Split_not_nil rest sep) as Hnn.
    destruct (Split rest sep) as [|piece pieces]; [contradiction|].
    change (Join ("" :: piece :: pieces) sep) with (String sep (Join (piece :: pieces) sep)).
    rewrite IH. reflexivity.
  - pose proof (Split_not_nil rest sep) as Hnn.
    destruct (Split rest sep) as [|piece pieces]; [contradiction|].
    rewrite Join_cons_nonempty, IH. reflexivity.
Qed.

Lemma Split_no_separator (s : string) (sep : ascii) :
  Forall (fun line => occurs sep line = false) (Split s sep).
Proof.
  induction s as [|c rest IH]; simpl.
  - repeat constructor.
  - destruct (Ascii.eqb_spec c sep) as [->|Hne].
    + constructor; [reflexivity | exact IH].
    + destruct (Split rest sep) as [|piece pieces]; [repeat constructor|].
      * simpl. apply Ascii.eqb_neq in Hne. rewrite Hne. reflexivity.
      * inversion IH as [|? ? Hp Hps]; subst. constructor; [|exact Hps].
        simpl. apply Ascii.eqb_neq in Hne. rewrite Hne. exact Hp.
Qed.

(** There is one piece more than there are separators. *)
Lemma Split_length (s : string) (sep : ascii) :
  length (Split s sep)
  = S (length (filter (fun c => c = sep) (list_ascii_of_string s))).
Proof.
  induction s as [|c rest IH]; [reflexivity|].
  simpl. destruct (Ascii.eqb_spec c sep) as [->|Hne].
  - rewrite filter_cons_True by reflexivity. simpl. rewrite IH. reflexivity.
  - rewrite filter_cons_False by exact Hne. rewrite <- IH.
    pose proof (Split_not_nil rest sep) as Hnn.
    destruct (Split rest sep); [contradiction | reflexivity].
Qed.

(** C7. The three text fields of a new status are the lines of the
    corresponding string: joining them with newlines gives the string
    back, no line holds a newline, and there is one line more than there
    are newlines, so never none.  [a\nb\n] gives [a], [b] and the empty
    line; the empty string gives one empty line. *)
Theorem NewExecutionStatus_lines (pod container : string) (retCode : ExitCode)
    (error stdout stderr : string) :
  let status := NewExecutionStatus pod container retCode error stdout stderr in
  Pod status = pod /\ Container status = container /\ RetCode status = retCode /\
  (Join (Error status) LF = error /\ Join (Stdout status) LF = stdout /\
   Join (Stderr status) LF = stderr) /\
  (Forall (fun line => occurs LF line = false) (Error status) /\
   Forall (fun line => occurs LF line = false) (Stdout status) /\
   Forall (fun line => occurs LF line = false) (Stderr status)) /\
  (Error status <> [] /\ Stdout status <> [] /\ Stderr status <> []) /\
  length (Stdout status)
  = S (length (filter (fun c => c = LF) (list_ascii_of_string stdout))) /\
  Stdout (NewExecutionStatus pod container retCode error
            (String "a" (String LF (String "b" (String LF "")))) stderr)
  = ["a"; "b"; ""] /\
  Stdout (NewExecutionStatus pod container retCode error "" stderr) = [""].
Proof.
  simpl. split_and!; auto using Join_Split, Split_no_separator, Split_not_nil, Split_length.
Qed.

(** ** The execution gateway *)

(** What one call of [exec] does to the state, in one equation. *)
Lemma exec_unfold (k8s : K8SExec) (ctx : Context) (podName containerName : string)
    (cmd : list string) (stdin : option string) (tty : bool) (st : State) :
  let req := execRequest k8s podName containerName cmd stdin tty in
  let p := Pods_Exec (Clientset_ k8s) (clock st) req in
  let called := (record_call ctx req st).2 in
  exec k8s ctx podName containerName cmd stdin tty st
  = match dial p with
    | Some err => ((InternalAppError, Some err), called)
    | None => let (err, st') := StreamWithContext ctx p called in (classify err, st')
    end.
Proof.
  intros req p called. unfold exec. fold req.
  unfold mbind, M_bind, mret, M_ret, record_call. cbn [clock]. fold p.
  destruct (dial p) as [err|]; [reflexivity|].
  unfold called, record_call. cbn [snd].
  match goal with |- context [StreamWithContext ctx p ?s] =>
    destruct (StreamWithContext ctx p s) as [[e|] st'] end.
  - unfold classify, errors_As_CodeExitError.
    destruct (As_chain e) as [[inner Code]|]; reflexivity.
  - reflexivity.
Qed.

Lemma StreamWithContext_expired (ctx : Context) (p : Process) (st : State) (d : Z) :
  Deadline ctx = Some d ->
  d < clock st + Z.max 0 (takes p) ->
  StreamWithContext ctx p st
  = stream_for p (Z.max 0 (d - clock st)) (Some DeadlineExceeded) st.
Proof.
  intros Hd Hlate. unfold StreamWithContext. rewrite Hd.
  destruct (Z.leb_spec (clock st + Z.max 0 (takes p)) d); [lia | reflexivity].
Qed.

Lemma StreamWithContext_completes (ctx : Context) (p : Process) (st : State) :
  (forall d, Deadline ctx = Some d -> clock st + Z.max 0 (takes p) <= d) ->
  StreamWithContext ctx p st = stream_for p (Z.max 0 (takes p)) (exit p) st.
Proof.
  intros Hin. unfold StreamWithContext.
  destruct (Deadline ctx) as [d|]; [|reflexivity].
  specialize (Hin d eq_refl).
  destruct (Z.leb_spec (clock st + Z.max 0 (takes p)) d); [reflexivity | lia].
Qed.

(** [Exec] when its own deadline strikes before the command ends: the
    status is [ExecutionTimeOut] and the lines are those written before
    the deadline. *)
Lemma Exec_deadline_expired (k8s : K8SExec) (podName containerName : string)
    (args : list string) (stdin : option string) (timeout t : Z) :
  let p := Pods_Exec (Clientset_ k8s) t
             (execRequest k8s podName containerName args stdin false) in
  dial p = None ->
  timeout < Z.max 0 (takes p) ->
  (Exec k8s podName containerName args stdin timeout (start t)).1
  = NewExecutionStatus podName containerName ExecutionTimeOut "context deadline exceeded"
      (wrote_out p (Z.max 0 timeout)) (wrote_err p (Z.max 0 timeout)).
Proof.
  intros p Hdial Hlate. unfold Exec.
  unfold mbind at 1 2 3, M_bind, new_buffers, WithTimeout. cbn [start clock calls Deadline Background].
  rewrite exec_unfold. cbn [clock]. fold p. rewrite Hdial.
  erewrite StreamWithContext_expired; [|reflexivity|cbn [record_call snd clock]; lia].
  cbn [record_call snd clock stream_for classify].
  replace (t + timeout - t) with timeout by lia.
  reflexivity.
Qed.

(** [ExecWithContext] when the deadline of the caller's context strikes
    before the command ends: the lines are kept, but the status is
    [InternalAppError]. *)
Lemma ExecWithContext_deadline_expired (k8s : K8SExec) (ctx : Context)
    (podName containerName : string) (args : list string) (stdin : option string) (d t : Z) :
  let p := Pods_Exec (Clientset_ k8s) t
             (execRequest k8s podName containerName args stdin false) in
  dial p = None ->
  Deadline ctx = Some d ->
  d < t + Z.max 0 (takes p) ->
  (ExecWithContext k8s ctx podName containerName args stdin (start t)).1
  = NewExecutionStatus podName containerName InternalAppError "context deadline exceeded"
      (wrote_out p (Z.max 0 (d - t))) (wrote_err p (Z.max 0 (d - t))).
Proof.
  intros p Hdial Hd Hlate. unfold ExecWithContext.
  unfold mbind at 1 2, M_bind, new_buffers. cbn [start clock calls].
  rewrite exec_unfold. cbn [clock]. fold p. rewrite Hdial.
  erewrite StreamWithContext_expired; [|exact Hd|cbn [record_call snd clock]; lia].
  cbn [record_call snd clock stream_for classify].
  reflexivity.
Qed.

(** C3, at a command that prints [partial] and then outlives a deadline
    of five seconds.  [Exec] reports [ExecutionTimeOut] and keeps the
    output.  [ExecWithContext], under a context with the same deadline,
    keeps the output too but reports [InternalAppError]: it never tests
    the error against [context.DeadlineExceeded]. *)
Theorem ExecWithContext_timeout_unclassified :
  let viaExec := (Exec hanging "pod" "main" ["sh"] None (5 * Second) (start 0)).1 in
  let viaContext :=
    (ExecWithContext hanging {| Deadline := Some (5 * Second) |} "pod" "main" ["sh"] None
       (start 0)).1 in
  RetCode viaExec = ExecutionTimeOut /\
  Stdout viaExec = ["partial"] /\
  Error viaExec = ["context deadline exceeded"] /\
  RetCode viaContext = InternalAppError /\
  RetCode viaContext <> ExecutionTimeOut /\
  Stdout viaContext = ["partial"] /\
  Error viaContext = ["context deadline exceeded"].
Proof.
  cbv zeta.
  rewrite (Exec_deadline_expired hanging "pod" "main" ["sh"] None (5 * Second) 0)
    by (cbn; first [reflexivity | lia]).
  rewrite (ExecWithContext_deadline_expired hanging _ "pod" "main" ["sh"] None (5 * Second) 0)
    by (cbn; first [reflexivity | lia]).
  split_and!; try reflexivity. discriminate.
Qed.

(** ** Probing for a utility *)

Lemma CheckUtilInContainer_unfold (k8s : K8SExec) (podName containerName util : string)
    (t : Z) :
  let retCode :=
    (exec k8s {| Deadline := Some (t + 5 * Second) |} podName containerName [util] None false
       (start t)).1.1 in
  (CheckUtilInContainer k8s podName containerName util (start t)).1
  = bool_decide (retCode <> CommandNotFound)
    && bool_decide (retCode <> CommandCannotExecute)
    && bool_decide (retCode <> InternalAppError).
Proof.
  cbv zeta. unfold CheckUtilInContainer.
  unfold mbind at 1 2, M_bind, new_buffers, WithTimeout.
  cbn [start clock calls Deadline Background stdout stderr].
  change {| clock := t; stdout := ""; stderr := ""; calls := [] |} with (start t).
  unfold mbind, M_bind.
  destruct (exec _ _ _ _ _ _ _ _) as [[retCode err] st']. reflexivity.
Qed.

(** C10. The utility is reported present exactly when the status of
    running it is none of 127, 126 and -1.  So a utility that runs to
    the end within the five seconds and exits with a status [N] other
    than those three is present, whatever [N] is: 1 and 2 for
    instance. *)
Theorem CheckUtilInContainer_negative_check (k8s : K8SExec)
    (podName containerName util : string) (t : Z) :
  let present := (CheckUtilInContainer k8s podName containerName util (start t)).1 in
  let retCode :=
    (exec k8s {| Deadline := Some (t + 5 * Second) |} podName containerName [util] None false
       (start t)).1.1 in
  let p := Pods_Exec (Clientset_ k8s) t
             (execRequest k8s podName containerName [util] None false) in
  (present = true <->
   retCode <> CommandNotFound /\ retCode <> CommandCannotExecute /\
   retCode <> InternalAppError) /\
  (forall err N,
     dial p = None -> Z.max 0 (takes p) <= 5 * Second -> exit p = Some err ->
     carries err N ->
     retCode = N /\ (present = true <-> N <> 127 /\ N <> 126 /\ N <> -1)) /\
  (forall err, dial p = Some err -> retCode = InternalAppError /\ present = false).
Proof.
  cbv zeta. rewrite CheckUtilInContainer_unfold.
  set (retCode := (exec _ _ _ _ _ _ _ _).1.1).
  assert (Hiff : bool_decide (retCode <> CommandNotFound)
                 && bool_decide (retCode <> CommandCannotExecute)
                 && bool_decide (retCode <> InternalAppError) = true <->
                 retCode <> CommandNotFound /\ retCode <> CommandCannotExecute /\
                 retCode <> InternalAppError).
  { rewrite !andb_true_iff, !bool_decide_eq_true. tauto. }
  split_and!.
  - exact Hiff.
  - intros err N Hdial Htakes Hexit [inner Has]%As_chain_carries.
    assert (HN : retCode = N).
    { unfold retCode. rewrite exec_unfold. cbn [start clock]. rewrite Hdial.
      rewrite StreamWithContext_completes.
      2:{ intros d [= <-]. cbn [record_call snd clock start]. lia. }
      unfold stream_for. rewrite Hexit. unfold classify. rewrite Has. reflexivity. }
    split; [exact HN|]. rewrite Hiff, HN. reflexivity.
  - intros err Hdial.
    assert (HN : retCode = InternalAppError).
    { unfold retCode. rewrite exec_unfold. cbn [start clock]. rewrite Hdial. reflexivity. }
    split; [exact HN|]. rewrite HN. reflexivity.
Qed.

(** A utility that exits with status 1, and one that exits with status
    2, are present. *)
Lemma CheckUtilInContainer_negative_check_witness :
  (CheckUtilInContainer (exiting 1) "pod" "main" "grep" (start 0)).1 = true /\
  (CheckUtilInContainer (exiting 2) "pod" "main" "grep" (start 0)).1 = true.
Proof.
  split.
  - apply (proj1 (CheckUtilInContainer_negative_check (exiting 1) "pod" "main" "grep" 0)).
    vm_compute. repeat split; discriminate.
  - apply (proj2 (proj1 (proj2
             (CheckUtilInContainer_negative_check (exiting 2) "pod" "main" "grep" 0))
             (CodeExitError (errorString "command terminated") 2) 2
             eq_refl ltac:(vm_compute; discriminate) eq_refl (carries_here _ _))).
    repeat split; discriminate.
Defined.

(** ** Traces of the file probes *)

Lemma append_empty_r (s : string) : s ++ "" = s.
Proof.
  induction s as [|c s IH]; [reflexivity|].
  change (String c (s ++ "") = String c s). rewrite IH. reflexivity.
Qed.

(** One call of [exec]: what it returns, and what it does to the trace,
    the output buffer and the clock. *)
Lemma exec_call (k8s : K8SExec) (ctx : Context) (podName containerName : string)
    (cmd : list string) (stdin : option string) (tty : bool) (st : State) :
  let c := {| call_time := clock st; call_ctx := ctx;
              call_req := execRequest k8s podName containerName cmd stdin tty |} in
  exists st',
    exec k8s ctx podName containerName cmd stdin tty st = (callResult k8s c, st') /\
    calls st' = (calls st ++ [c])%list /\
    stdout st' = stdout st ++ callOutput k8s c /\
    clock st <= clock st' /\
    (forall d, Deadline ctx = Some d -> clock st <= d -> clock st' <= d).
Proof.
  intros c. rewrite exec_unfold.
  unfold callResult, callOutput, callStream, callProcess. cbn [call_time call_req call_ctx c].
  destruct (dial _) as [err|].
  - eexists. split; [reflexivity|]. cbn [record_call snd calls stdout clock].
    rewrite append_empty_r. split_and!; auto with zarith.
  - unfold StreamWithContext. cbn [record_call snd clock start].
    set (p := Pods_Exec _ _ _).
    destruct (Deadline ctx) as [d|].
    + destruct (Z.leb_spec (clock st + Z.max 0 (takes p)) d) as [Hle|Hgt];
        unfold stream_for; cbn [fst snd calls stdout clock];
        (eexists; split; [reflexivity|]); cbn [calls stdout clock];
        (split_and!; [reflexivity | reflexivity | lia | intros d' [= <-] Hd; lia]).
    + unfold stream_for; cbn [fst snd calls stdout clock].
      eexists; split; [reflexivity|]. cbn [calls stdout clock].
      split_and!; [reflexivity | reflexivity | lia | discriminate].
Qed.

(** Run the next [exec] of a probe whose equation is [Hr], naming the
    state it leaves, its result and the facts [exec_call] gives. *)
Ltac next_attempt Hr st' rc e R Hcalls Hout Hclk Hdl :=
  match type of Hr with
  | context [exec ?k ?ctx ?p ?c ?cmd ?i ?tty ?st] =>
      let E := fresh "E" in
      destruct (exec_call k ctx p c cmd i tty st) as (st' & E & Hcalls & Hout & Hclk & Hdl);
      rewrite E in Hr; clear E;
      match type of Hr with
      | context [callResult k ?call] =>
          destruct (callResult k call) as [rc e] eqn:R
      end;
      cbv beta iota in Hr;
      specialize (Hdl _ eq_refl)
  end.

(** Decide the tests [retCode != Success] left in [Hr] on [rc]. *)
Ltac test_status Hr rc F :=
  destruct (decide (rc <> Success)) as [F|F]; cbv beta iota in Hr;
  [| repeat (destruct (decide (rc <> Success)) as [?|_]; [contradiction|];
             cbv beta iota in Hr) ].

Ltac trace_facts :=
  unfold commands;
  repeat match goal with
         | H : calls _ = _ |- _ => cbn [start calls app] in H; rewrite H in *; clear H
         end;
  repeat match goal with
         | H : stdout _ = _ |- _ => cbn [start stdout] in H; rewrite H in *; clear H
         end;
  cbn [start clock] in *.

Lemma ReadFile_trace_of (k8s : K8SExec) (podName containerName filePath : string) (t : Z)
    (r : string * option error * State) :
  ReadFile k8s podName containerName filePath (start t) = r ->
  exists (n : nat) (earlier : list Call) (c : Call),
    (1 <= n <= 4)%nat /\
    commands r.2 = take n (readAttempts filePath) /\
    calls r.2 = (earlier ++ [c])%list /\
    Forall (fun c' => (callResult k8s c').1 <> Success) earlier /\
    ((n < 4)%nat -> (callResult k8s c).1 = Success) /\
    r.1.2 = (callResult k8s c).2 /\
    r.1.1 = written k8s (calls r.2) /\
    Forall (fun c' => call_ctx c' = {| Deadline := Some (t + 5 * Second) |}) (calls r.2) /\
    t <= clock r.2 <= t + 5 * Second.
Proof.
  intros Hr. unfold ReadFile in Hr.
  unfold mbind, M_bind, new_buffers, WithTimeout, stdout_String, mret, M_ret in Hr.
  cbn [start clock calls Deadline Background stdout stderr] in Hr.
  change {| clock := t; stdout := ""; stderr := ""; calls := [] |} with (start t) in Hr.
  set (ctx := {| Deadline := Some (t + 5 * Second) |}) in *.
  assert (HSecond : 0 < Second) by reflexivity.
  next_attempt Hr st1 rc1 e1 R1 Hc1 Ho1 Hk1 Hd1.
  test_status Hr rc1 F1.
  2:{ subst r. cbn [fst snd]. trace_facts.
      eexists 1%nat, [], _. rewrite R1.
      split_and!; try reflexivity; try lia; repeat constructor.
      - intros _. cbn [fst]. destruct (decide (rc1 = Success)); [assumption|contradiction]. }
  next_attempt Hr st2 rc2 e2 R2 Hc2 Ho2 Hk2 Hd2.
  test_status Hr rc2 F2.
  2:{ subst r. cbn [fst snd]. trace_facts.
      eexists 2%nat, [_], _. rewrite R2.
      split_and!; try reflexivity; try lia; repeat constructor.
      - rewrite R1. exact F1.
      - intros _. cbn [fst]. destruct (decide (rc2 = Success)); [assumption|contradiction]. }
  next_attempt Hr st3 rc3 e3 R3 Hc3 Ho3 Hk3 Hd3.
  test_status Hr rc3 F3.
  2:{ subst r. cbn [fst snd]. trace_facts.
      eexists 3%nat, [_; _], _. rewrite R3.
      split_and!; try reflexivity; try lia; repeat constructor.
      - rewrite R1. exact F1.
      - rewrite R2. exact F2.
      - intros _. cbn [fst]. destruct (decide (rc3 = Success)); [assumption|contradiction]. }
  next_attempt Hr st4 rc4 e4 R4 Hc4 Ho4 Hk4 Hd4.
  subst r. cbn [fst snd]. trace_facts.
  eexists 4%nat, [_; _; _], _. rewrite R4.
  split_and!; try reflexivity; try lia; repeat constructor.
  - rewrite R1. exact F1.
  - rewrite R2. exact F2.
  - rewrite R3. exact F3.
Qed.

(** [ReadFile] in full: it issues the first [n] of its four commands, in
    order; every attempt but the last failed, and the last succeeded
    unless it was the fourth; the error is that of the last attempt; the
    string is everything the attempts wrote, failed ones included; all
    attempts ran under one context, five seconds from the start. *)
Lemma ReadFile_trace (k8s : K8SExec) (podName containerName filePath : string) (t : Z) :
  let r := ReadFile k8s podName containerName filePath (start t) in
  exists (n : nat) (earlier : list Call) (c : Call),
    (1 <= n <= 4)%nat /\
    commands r.2 = take n (readAttempts filePath) /\
    calls r.2 = (earlier ++ [c])%list /\
    Forall (fun c' => (callResult k8s c').1 <> Success) earlier /\
    ((n < 4)%nat -> (callResult k8s c).1 = Success) /\
    r.1.2 = (callResult k8s c).2 /\
    r.1.1 = written k8s (calls r.2) /\
    Forall (fun c' => call_ctx c' = {| Deadline := Some (t + 5 * Second) |}) (calls r.2) /\
    t <= clock r.2 <= t + 5 * Second.
Proof.
  intros r. apply (ReadFile_trace_of k8s podName containerName filePath t r). reflexivity.
Qed.

(** On an image without [cat], [sed] and [tail] but with a shell, the
    first three attempts fail and the read loop's output is returned. *)
Lemma ReadFile_shellOnly :
  let r := ReadFile shellOnly "pod" "main" "/etc/hostname" (start 0) in
  r.1 = ("hello", None) /\
  commands r.2 = readAttempts "/etc/hostname" /\
  map (fun c => (callResult shellOnly c).1) (calls r.2) = [127; 127; 127; 0].
Proof. vm_compute. repeat split. Qed.

(** C5, where [cat] prints [he] before it is killed and [sed] then
    prints the whole file [hello].  The attempts are [cat] then [sed],
    the first to succeed is [sed], and its output is [hello]; but
    [ReadFile] returns [hehello], because the output buffer is shared by
    the attempts and never reset. *)
Theorem ReadFile_keeps_failed_output :
  let r := ReadFile catKilled "pod" "main" "/etc/hostname" (start 0) in
  commands r.2 = [["cat"; "/etc/hostname"]; ["sed"; ""; "/etc/hostname"]] /\
  map (fun c => (callResult catKilled c).1) (calls r.2) = [137; Success] /\
  map (callOutput catKilled) (calls r.2) = ["he"; "hello"] /\
  r.1 = ("hehello", None) /\
  r.1.1 <> "hello".
Proof. vm_compute. split_and!; try reflexivity. discriminate. Qed.

(** ** One deadline for a whole probe *)

(** A state reached by a probe started at [t]: every call ran under the
    context made at [t], and the clock is within its five seconds. *)
Lemma CheckIfFilePathIsReadable_trace_of (k8s : K8SExec)
    (podName containerName filePath : string) (t : Z) (r : bool * State) :
  CheckIfFilePathIsReadable k8s podName containerName filePath (start t) = r ->
  Forall (fun c => call_ctx c = {| Deadline := Some (t + 5 * Second) |}) (calls r.2) /\
  (1 <= length (calls r.2) <= 2)%nat /\
  t <= clock r.2 <= t + 5 * Second.
Proof.
  intros Hr. unfold CheckIfFilePathIsReadable in Hr.
  unfold mbind, M_bind, new_buffers, WithTimeout, stdout_String, mret, M_ret in Hr.
  cbn [start clock calls Deadline Background stdout stderr] in Hr.
  change {| clock := t; stdout := ""; stderr := ""; calls := [] |} with (start t) in Hr.
  set (ctx := {| Deadline := Some (t + 5 * Second) |}) in *.
  assert (HSecond : 0 < Second) by reflexivity.
  next_attempt Hr st1 rc1 e1 R1 Hc1 Ho1 Hk1 Hd1.
  test_status Hr rc1 F1.
  - next_attempt Hr st2 rc2 e2 R2 Hc2 Ho2 Hk2 Hd2.
    subst r. cbn [fst snd]. trace_facts.
    split_and!; try (cbn; lia); repeat constructor.
  - destruct (3 <=? String.length (stdout st1))%nat;
      subst r; cbn [fst snd]; trace_facts;
      (split_and!; try (cbn; lia); repeat constructor).
Qed.

Lemma CheckIfFilePathExists_trace_of (k8s : K8SExec)
    (podName containerName filePath : string) (t : Z) (r : bool * State) :
  CheckIfFilePathExists k8s podName containerName filePath (start t) = r ->
  Forall (fun c => call_ctx c = {| Deadline := Some (t + 5 * Second) |}) (calls r.2) /\
  (1 <= length (calls r.2) <= 2)%nat /\
  t <= clock r.2 <= t + 5 * Second.
Proof.
  intros Hr. unfold CheckIfFilePathExists in Hr.
  unfold mbind, M_bind, new_buffers, WithTimeout, stdout_String, mret, M_ret in Hr.
  cbn [start clock calls Deadline Background stdout stderr] in Hr.
  change {| clock := t; stdout := ""; stderr := ""; calls := [] |} with (start t) in Hr.
  set (ctx := {| Deadline := Some (t + 5 * Second) |}) in *.
  assert (HSecond : 0 < Second) by reflexivity.
  next_attempt Hr st1 rc1 e1 R1 Hc1 Ho1 Hk1 Hd1.
  test_status Hr rc1 F1.
  - next_attempt Hr st2 rc2 e2 R2 Hc2 Ho2 Hk2 Hd2.
    subst r. cbn [fst snd]. trace_facts.
    split_and!; try (cbn; lia); repeat constructor.
  - subst r; cbn [fst snd]; trace_facts.
    split_and!; try (cbn; lia); repeat constructor.
Qed.

(** C9, as the code has it.  Each probe makes one context when it
    starts, five seconds ahead, and passes it to every attempt: all the
    calls of a probe started at [t] carry the deadline [t + 5s], there
    are at most four of them for [ReadFile] and two for the checks, and
    the probe as a whole ends within those five seconds. *)
Theorem probes_share_one_deadline (k8s : K8SExec) (podName containerName filePath : string)
    (t : Z) :
  let shared (st : State) (most : nat) :=
    Forall (fun c => call_ctx c = {| Deadline := Some (t + 5 * Second) |}) (calls st) /\
    (1 <= length (calls st) <= most)%nat /\
    t <= clock st <= t + 5 * Second in
  shared (ReadFile k8s podName containerName filePath (start t)).2 4%nat /\
  shared (CheckIfFilePathIsReadable k8s podName containerName filePath (start t)).2 2%nat /\
  shared (CheckIfFilePathExists k8s podName containerName filePath (start t)).2 2%nat.
Proof.
  cbv beta zeta. split; [|split].
  - destruct (ReadFile_trace k8s podName containerName filePath t)
      as (n & earlier & c & Hn & Hcmds & _ & _ & _ & _ & _ & Hctx & Hclock).
    cbv zeta in *.
    apply (f_equal length) in Hcmds. unfold commands in Hcmds.
    rewrite length_map, length_take in Hcmds. cbn [readAttempts length] in Hcmds.
    repeat split; try tauto; lia.
  - apply (CheckIfFilePathIsReadable_trace_of k8s podName containerName filePath t).
    reflexivity.
  - apply (CheckIfFilePathExists_trace_of k8s podName containerName filePath t).
    reflexivity.
Qed.

(** C9, as stated, fails where every command hangs: the four attempts
    of [ReadFile] start at 0s, 5s, 5s and 5s, all under the deadline
    5s, and the probe ends at 5s, not at 20s.  The three later
    attempts have no deadline of their own. *)
Lemma ReadFile_attempts_share_deadline :
  let st := (ReadFile hanging "pod" "main" "/etc/hostname" (start 0)).2 in
  map call_time (calls st) = [0; 5 * Second; 5 * Second; 5 * Second] /\
  map (fun c => Deadline (call_ctx c)) (calls st)
  = [Some (5 * Second); Some (5 * Second); Some (5 * Second); Some (5 * Second)] /\
  clock st = 5 * Second /\
  ~ Forall ownDeadline (calls st).
Proof.
  cbv zeta. split_and!; try (vm_compute; reflexivity).
  intros H.
  assert (Hsecond : exists c, calls (ReadFile hanging "pod" "main" "/etc/hostname" (start 0)).2
                              !! 1%nat = Some c /\ ~ ownDeadline c).
  { eexists. split; [vm_compute; reflexivity|]. vm_compute. discriminate. }
  destruct Hsecond as (c & Hc & Hno).
  apply Hno. eapply Forall_lookup_1; eassumption.
Qed.

(** ** Deduplicating pods *)

Lemma countPods_keys (pods : list PodT) (m : gmap string Z) (name : string) :
  is_Some (countPods pods m !! name) <-> is_Some (m !! name) \/ name ∈ map Name pods.
Proof.
  unfold countPods. revert m.
  induction pods as [|p pods IH]; intros m; cbn [fold_left map].
  - rewrite list_elem_of_In. simpl. tauto.
  - rewrite IH, elem_of_cons.
    destruct (decide (Name p = name)) as [->|Hne].
    + rewrite lookup_insert_eq. split; [auto|]. intros _. left. eauto.
    + rewrite lookup_insert_ne by exact Hne. split; intros [H|H]; auto.
      destruct H as [H|H]; [congruence | auto].
Qed.

(** A group whose listing fails counts as a group without pods: in both
    cases the loop body leaves [uniquePods] and the membership map as
    they were. *)
Lemma scanGroup_matched (k8s : K8SExec) (acc : list PodT * gmap string Z)
    (selector : LabelSelector) :
  scanGroup k8s acc selector
  = ((acc.1 ++ take 1 (matched k8s selector))%list, countPods (matched k8s selector) acc.2).
Proof.
  unfold scanGroup, matched, selectorOptions. destruct acc as [uniquePods groupPods].
  destruct (GetPods k8s _) as [[|p pods]|e]; cbn [fst snd take countPods fold_left].
  - rewrite app_nil_r. reflexivity.
  - reflexivity.
  - rewrite app_nil_r. reflexivity.
Qed.

Lemma scanGroups_from (k8s : K8SExec) (selectors : list LabelSelector)
    (acc : list PodT * gmap string Z) :
  let result := fold_left (scanGroup k8s) selectors acc in
  result.1 = (acc.1 ++ representatives k8s selectors)%list /\
  forall name, is_Some (result.2 !! name)
               <-> is_Some (acc.2 !! name) \/ name ∈ members k8s selectors.
Proof.
  revert acc. induction selectors as [|selector selectors IH]; intros acc; cbn [fold_left].
  - cbv zeta. unfold representatives, members. cbn [flat_map].
    rewrite app_nil_r. split; [reflexivity|]. intros name.
    rewrite elem_of_nil. tauto.
  - rewrite scanGroup_matched.
    specialize (IH ((acc.1 ++ take 1 (matched k8s selector))%list,
                    countPods (matched k8s selector) acc.2)).
    cbv zeta in *. destruct IH as [IHu IHm]. cbn [fst snd] in IHu, IHm.
    split.
    + rewrite IHu. unfold representatives. cbn [flat_map]. rewrite app_assoc. reflexivity.
    + intros name. rewrite IHm, countPods_keys. unfold members. cbn [flat_map].
      rewrite elem_of_app. tauto.
Qed.

Lemma scanGroups_spec (k8s : K8SExec) (selectors : list LabelSelector)
    (uniquePods : list PodT) :
  (scanGroups k8s selectors uniquePods).1
  = (uniquePods ++ representatives k8s selectors)%list /\
  forall name, is_Some ((scanGroups k8s selectors uniquePods).2 !! name)
               <-> name ∈ members k8s selectors.
Proof.
  destruct (scanGroups_from k8s selectors (uniquePods, ∅)) as [Hu Hm].
  split; [exact Hu|]. intros name. unfold scanGroups. rewrite Hm. cbn [snd].
  rewrite lookup_empty. split; [intros [[? [=]]|H]; exact H | auto].
Qed.

Lemma appendRemainder_filter (deploymentPods statefulSetsPods daemonSetsPods : gmap string Z)
    (items uniquePods : list PodT) :
  appendRemainder deploymentPods statefulSetsPods daemonSetsPods items uniquePods
  = (uniquePods
     ++ filter (fun p => deploymentPods !! Name p = None /\
                         statefulSetsPods !! Name p = None /\
                         daemonSetsPods !! Name p = None) items)%list.
Proof.
  unfold appendRemainder. revert uniquePods.
  induction items as [|p items IH]; intros uniquePods; cbn [fold_left].
  - rewrite app_nil_r. reflexivity.
  - rewrite IH.
    destruct (deploymentPods !! Name p) eqn:E1;
      [rewrite filter_cons_False by (intros (? & _); congruence); reflexivity|].
    destruct (statefulSetsPods !! Name p) eqn:E2;
      [rewrite filter_cons_False by (intros (_ & ? & _); congruence); reflexivity|].
    destruct (daemonSetsPods !! Name p) eqn:E3;
      [rewrite filter_cons_False by (intros (_ & _ & ?); congruence); reflexivity|].
    rewrite filter_cons_True by auto. rewrite <- app_assoc. reflexivity.
Qed.

(** When the four top-level listings succeed, the result is the full
    count, then the first match of every group that has one
    (deployments, stateful sets, daemon sets, in that order), then the
    pods of the full listing that no group matched. *)
Lemma GetUniquePods_shape (k8s : K8SExec) (deployments : list Deployment)
    (statefulSets : list StatefulSet) (daemonSets : list DaemonSet) (items : list PodT) :
  GetDeployments k8s = Ok deployments ->
  GetStatefulSets k8s = Ok statefulSets ->
  GetDaemonSets k8s = Ok daemonSets ->
  GetPods k8s {| LabelSelector_ := "" |} = Ok items ->
  let groups := (map deployment_Selector deployments
                 ++ map statefulSet_Selector statefulSets
                 ++ map daemonSet_Selector daemonSets)%list in
  GetUniquePods k8s
  = (Z.of_nat (length items),
     (representatives k8s groups ++ filter (fun p => Name p ∉ members k8s groups) items)%list,
     None).
Proof.
  intros Hd Hs Hds Hitems groups. unfold GetUniquePods.
  unfold GetPods in Hitems. rewrite Hd, Hs, Hds.
  destruct (scanGroups_spec k8s (map deployment_Selector deployments) []) as [Hu1 Hm1].
  destruct (scanGroups k8s (map deployment_Selector deployments) [])
    as [u1 deploymentPods] eqn:E1.
  destruct (scanGroups_spec k8s (map statefulSet_Selector statefulSets) u1) as [Hu2 Hm2].
  destruct (scanGroups k8s (map statefulSet_Selector statefulSets) u1)
    as [u2 statefulSetsPods] eqn:E2.
  destruct (scanGroups_spec k8s (map daemonSet_Selector daemonSets) u2) as [Hu3 Hm3].
  destruct (scanGroups k8s (map daemonSet_Selector daemonSets) u2)
    as [u3 daemonSetsPods] eqn:E3.
  cbn [fst snd] in *. rewrite Hitems. rewrite appendRemainder_filter.
  subst u3 u2 u1. cbn [app].
  subst groups. unfold representatives, members. rewrite !flat_map_app.
  fold (representatives k8s (map deployment_Selector deployments)).
  fold (representatives k8s (map statefulSet_Selector statefulSets)).
  fold (representatives k8s (map daemonSet_Selector daemonSets)).
  fold (members k8s (map deployment_Selector deployments)).
  fold (members k8s (map statefulSet_Selector statefulSets)).
  fold (members k8s (map daemonSet_Selector daemonSets)).
  rewrite <- !app_assoc. do 2 f_equal. do 3 f_equal.
  apply list_filter_iff. intros p.
  rewrite !elem_of_app, !eq_None_not_Some, Hm1, Hm2, Hm3. tauto.
Qed.

Lemma representatives_members (k8s : K8SExec) (selectors : list LabelSelector) (p : PodT) :
  p ∈ representatives k8s selectors -> Name p ∈ members k8s selectors.
Proof.
  unfold representatives, members.
  induction selectors as [|selector selectors IH]; cbn [flat_map].
  - intros []%elem_of_nil.
  - rewrite !elem_of_app. intros [H|H]; [left | right; auto].
    destruct (matched k8s selector) as [|q pods]; cbn [take] in H.
    + apply elem_of_nil in H as [].
    + apply list_elem_of_singleton in H as ->. cbn [map]. apply elem_of_cons. auto.
Qed.

(** The list has no duplicate name, provided the pods of the full
    listing have distinct names and so have the first matches of the
    groups. *)
Lemma GetUniquePods_NoDup (k8s : K8SExec) (deployments : list Deployment)
    (statefulSets : list StatefulSet) (daemonSets : list DaemonSet) (items : list PodT) :
  GetDeployments k8s = Ok deployments ->
  GetStatefulSets k8s = Ok statefulSets ->
  GetDaemonSets k8s = Ok daemonSets ->
  GetPods k8s {| LabelSelector_ := "" |} = Ok items ->
  NoDup (Name <$> items) ->
  NoDup (Name <$> representatives k8s
                    (map deployment_Selector deployments
                     ++ map statefulSet_Selector statefulSets
                     ++ map daemonSet_Selector daemonSets)%list) ->
  NoDup (Name <$> (GetUniquePods k8s).1.2).
Proof.
  intros Hd Hs Hds Hitems Hnames Hreps.
  rewrite (GetUniquePods_shape k8s _ _ _ _ Hd Hs Hds Hitems). cbn [fst snd].
  rewrite fmap_app. apply NoDup_app. split_and!.
  - exact Hreps.
  - intros name [p [-> Hp]]%list_elem_of_fmap [q [Hq Hin]]%list_elem_of_fmap.
    apply list_elem_of_filter in Hin as [Hnot _].
    apply Hnot. rewrite <- Hq. apply representatives_members. exact Hp.
  - eapply sublist_NoDup; [exact Hnames|].
    apply fmap_sublist, sublist_filter.
Qed.

(** C1, on two deployments that each match three pods, one pod being
    matched by both and listed first by both, and a pod outside any
    group.  The count is right, 6, and the groups come first; but the
    pod matched by both is the representative of both, so it is in the
    list twice. *)
Theorem GetUniquePods_duplicate_representative :
  GetUniquePods overlapping
  = (6, [pod "a-shared"; pod "a-shared"; pod "solo"], None) /\
  ~ NoDup (GetUniquePods overlapping).1.2.
Proof.
  assert (E : GetUniquePods overlapping
              = (6, [pod "a-shared"; pod "a-shared"; pod "solo"], None))
    by (vm_compute; reflexivity).
  split; [exact E|]. rewrite E. cbn [fst snd].
  intros H. apply NoDup_cons in H as [Hnot _]. apply Hnot. apply elem_of_cons. auto.
Qed.




(** The whole call on that cluster: the failed listing and the stateful
    set without pods leave no trace, and the call succeeds. *)
Lemma GetUniquePods_flaky :
  GetUniquePods flaky = (3, [pod "web-1"; pod "solo"], None).
Proof. vm_compute. reflexivity. Qed.

(** ** The token bucket *)

Lemma fill_sends (n : nat) (c : chan) :
  len c + Z.of_nat n <= cap c ->
  fill n c = Some {| len := len c + Z.of_nat n; cap := cap c |}.
Proof.
  revert c. induction n as [|n IH]; intros c Hroom; cbn [fill].
  - destruct c as [l k]. cbn [len cap]. rewrite Z.add_0_r. reflexivity.
  - unfold send. destruct (Z.ltb_spec (len c) (cap c)); [|lia].
    rewrite IH by (cbn [len cap]; lia). cbn [len cap]. do 2 f_equal. lia.
Qed.

(** [NewTokenBucket] returns a full bucket whose refill goroutine has not
    run yet; it panics on a negative [burst]. *)
Lemma NewTokenBucket_full (rate burst : Z) :
  NewTokenBucket rate burst
  = if (burst <? 0)%Z then None
    else Some {| tokens := {| len := burst; cap := burst |}; rate_ := rate;
                 goroutine := Spawned |}.
Proof.
  unfold NewTokenBucket, make_chan.
  destruct (Z.ltb_spec burst 0); [reflexivity|].
  rewrite fill_sends by (cbn [len cap]; lia). cbn [len cap].
  rewrite Z2Nat.id by lia. reflexivity.
Qed.

Lemma step_keeps_ok (burst : Z) (tb tb' : TokenBucket) (e : event) :
  bucket_ok burst tb -> step tb e tb' -> bucket_ok burst tb'.
Proof.
  intros (Hcap & Hlen & Hroom) Hstep. unfold bucket_ok.
  destruct Hstep as [tb c Hlive Hrecv | tb Hg | tb Hg | tb Hg | tb c Hg Hsend | tb Hg];
    cbn [tokens goroutine].
  - unfold recv in Hrecv. destruct (Z.ltb_spec 0 (len (tokens tb))); [|discriminate].
    injection Hrecv as <-. cbn [len cap]. split_and!; [assumption | lia | lia |].
    intros Hs. specialize (Hroom Hs). lia.
  - split_and!; try assumption; try lia. rewrite Hg in Hroom.
    destruct (ticker_ok (rate_ tb)); discriminate.
  - split_and!; try assumption; try lia. discriminate.
  - split_and!; try assumption; try lia.
    destruct (Z.ltb_spec (len (tokens tb)) (cap (tokens tb))); [lia | discriminate].
  - unfold send in Hsend.
    destruct (Z.ltb_spec (len (tokens tb)) (cap (tokens tb))); [|discriminate].
    injection Hsend as <-. cbn [len cap]. split_and!; [assumption | lia | lia | discriminate].
  - split_and!; try assumption; try lia. discriminate.
Qed.

Lemma reachable_ok (burst : Z) (tb0 tb : TokenBucket) :
  bucket_ok burst tb0 -> reachable tb0 tb -> bucket_ok burst tb.
Proof.
  intros H0 Hreach. induction Hreach as [|tb e tb' _ IH Hstep]; [exact H0|].
  eapply step_keeps_ok; eassumption.
Qed.

(** The refill never blocks on its send: the channel has room whenever
    the goroutine is about to send, whatever callers did in between. *)
Lemma refill_never_blocks (rate burst : Z) (tb0 tb : TokenBucket) :
  NewTokenBucket rate burst = Some tb0 ->
  reachable tb0 tb ->
  goroutine tb = Sending ->
  exists tb', step tb Refill tb'.
Proof.
  intros Hnew Hreach Hs. rewrite NewTokenBucket_full in Hnew.
  destruct (Z.ltb_spec burst 0); [discriminate|]. injection Hnew as <-.
  assert (Hok : bucket_ok burst tb).
  { eapply reachable_ok; [|exact Hreach]. unfold bucket_ok. cbn. split_and!; [reflexivity | lia | lia | discriminate]. }
  destruct Hok as (Hcap & Hlen & Hroom). specialize (Hroom Hs).
  eexists. apply step_Refill; [exact Hs|].
  unfold send. destruct (Z.ltb_spec (len (tokens tb)) (cap (tokens tb))); [reflexivity | lia].
Qed.

(** C4. A new bucket holds [burst] tokens.  After any interleaving of
    waits and refill steps the count is between 0 and [burst].  A tick
    whose length test finds the bucket full goes on to unlock and adds
    nothing.  A step that lowers the count is a [Wait], and lowers it by
    one; a step that raises it is the refill's send, by one, into a
    bucket that was not full. *)
Theorem TokenBucket_bounds (rate burst : Z) (tb0 : TokenBucket) :
  NewTokenBucket rate burst = Some tb0 ->
  len (tokens tb0) = burst /\
  cap (tokens tb0) = burst /\
  (forall tb, reachable tb0 tb ->
     0 <= len (tokens tb) <= burst /\ cap (tokens tb) = burst) /\
  (forall tb tb', reachable tb0 tb -> step tb Test tb' ->
     len (tokens tb) = burst ->
     tokens tb' = tokens tb /\ goroutine tb' = Unlocking) /\
  (forall tb e tb', reachable tb0 tb -> step tb e tb' ->
     (len (tokens tb') < len (tokens tb) ->
      e = Wait /\ len (tokens tb') = len (tokens tb) - 1) /\
     (len (tokens tb) < len (tokens tb') ->
      e = Refill /\ len (tokens tb) < burst /\ len (tokens tb') = len (tokens tb) + 1) /\
     (e <> Wait -> e <> Refill -> tokens tb' = tokens tb)).
Proof.
  intros Hnew. rewrite NewTokenBucket_full in Hnew.
  destruct (Z.ltb_spec burst 0); [discriminate|]. injection Hnew as <-.
  cbn [tokens len cap].
  assert (Hinit : bucket_ok burst
                    {| tokens := {| len := burst; cap := burst |}; rate_ := rate;
                       goroutine := Spawned |}).
  { unfold bucket_ok. cbn. split_and!; [reflexivity | lia | lia | discriminate]. }
  split_and!; try reflexivity.
  - intros tb Hreach. destruct (reachable_ok _ _ _ Hinit Hreach) as (Hcap & Hlen & _).
    split; assumption.
  - intros tb tb' Hreach Hstep Hfull.
    destruct (reachable_ok _ _ _ Hinit Hreach) as (Hcap & _ & _).
    inversion Hstep; subst. cbn [tokens goroutine]. split; [reflexivity|].
    destruct (Z.ltb_spec (len (tokens tb)) (cap (tokens tb))); [lia | reflexivity].
  - intros tb e tb' Hreach Hstep.
    destruct (reachable_ok _ _ _ Hinit Hreach) as (Hcap & Hlen & _).
    destruct Hstep as [tb c Hlive Hrecv | tb Hg | tb Hg | tb Hg | tb c Hg Hsend | tb Hg];
      cbn [tokens goroutine].
    + unfold recv in Hrecv. destruct (Z.ltb_spec 0 (len (tokens tb))); [|discriminate].
      injection Hrecv as <-. cbn [len cap].
      split_and!; [intros _; split; [reflexivity | lia] | lia | congruence].
    + split_and!; [lia | lia | reflexivity].
    + split_and!; [lia | lia | reflexivity].
    + split_and!; [lia | lia | reflexivity].
    + unfold send in Hsend.
      destruct (Z.ltb_spec (len (tokens tb)) (cap (tokens tb))); [|discriminate].
      injection Hsend as <-. cbn [len cap].
      split_and!; [lia | intros _; split_and!; [reflexivity | lia | lia] | congruence].
    + split_and!; [lia | lia | reflexivity].
Qed.

(** The bucket of rate 10 and burst 5 starts with five tokens and never
    holds more than five or fewer than none. *)
Lemma TokenBucket_bounds_witness :
  exists tb0, NewTokenBucket 10 5 = Some tb0 /\ len (tokens tb0) = 5 /\
    forall tb, reachable tb0 tb -> 0 <= len (tokens tb) <= 5.
Proof.
  eexists. split; [reflexivity|].
  pose proof (TokenBucket_bounds 10 5 _ eq_refl) as (Hlen & _ & Hreach & _).
  split; [exact Hlen|]. intros tb Htb. apply (Hreach tb Htb).
Defined.

(* ================================================================== *)
(** * Part III: further properties of the code *)
(* ================================================================== *)

(** ** The registry, continued *)

Lemma notFoundMessage_not_empty (N : Z) : notFoundMessage N <> "".
Proof. unfold notFoundMessage. discriminate. Qed.

Lemma GetExitCode_carried (err : error) (inner : error) (N : Z) :
  As_chain err = Some (inner, N) ->
  GetExitCode (Some err)
  = (N, match exitCodeDescriptions !! N with
        | Some d => d
        | None => notFoundMessage N
        end).
Proof.
  intros Has. unfold GetExitCode, errors_As_CodeExitError. rewrite Has.
  destruct (exitCodeDescriptions !! N) as [d|] eqn:E; rewrite ?E; reflexivity.
Qed.

Lemma description_of_documented (N : Z) (d : string) :
  exitCodeDescriptions !! N = Some d -> d <> "".
Proof.
  intros H%lookup_description.
  exact (proj1 (Forall_forall _ _) descriptions_not_empty _ H).
Qed.

(** X1. The description [GetExitCode] returns is empty exactly when the
    error wraps no process-exit failure ([nil] included), and then the
    code is [InternalAppError]: an exit failure always gets a text, from
    the table or the not-found message. *)
Theorem GetExitCode_description_empty_iff (err : option error) :
  ((GetExitCode err).2 = "" <-> forall e N, err = Some e -> ~ carries e N) /\
  ((GetExitCode err).2 = "" -> (GetExitCode err).1 = InternalAppError).
Proof.
  destruct err as [e|].
  - destruct (As_chain e) as [[inner N]|] eqn:Has.
    + rewrite (GetExitCode_carried e inner N Has). cbn [fst snd].
      assert (Hne : match exitCodeDescriptions !! N with
                    | Some d => d
                    | None => notFoundMessage N
                    end <> "").
      { destruct (exitCodeDescriptions !! N) as [d|] eqn:E.
        - exact (description_of_documented N d E).
        - apply notFoundMessage_not_empty. }
      split; [split|]; try contradiction.
      intros H. exfalso. apply (H e N eq_refl). apply As_chain_carries. eauto.
    + unfold GetExitCode, errors_As_CodeExitError. rewrite Has. cbn [fst snd].
      split; [split|]; try reflexivity.
      intros _ e' N [= <-]. apply As_chain_None. exact Has.
  - cbn. split; [split|]; try reflexivity. intros _ e N [=].
Qed.

(** X2. [GetExitCode] and [GetExitCodeDescription] agree on an exit
    failure with code [N]: the code returned is [N], and the text is the
    description of [N] whenever [N] has one; when it has none, the text
    is the not-found message where [GetExitCodeDescription] gives the
    empty string. *)
Theorem GetExitCode_agrees_with_description (err : error) (N : Z) :
  carries err N ->
  (GetExitCode (Some err)).1 = N /\
  (GetExitCodeDescription N <> "" ->
   (GetExitCode (Some err)).2 = GetExitCodeDescription N) /\
  (GetExitCodeDescription N = "" ->
   (GetExitCode (Some err)).2 = "Exit code " ++ pretty N ++ " description not found!").
Proof.
  intros [inner Has]%As_chain_carries.
  rewrite (GetExitCode_carried err inner N Has), GetExitCodeDescription_lookup. cbn [fst snd].
  destruct (exitCodeDescriptions !! N) as [d|] eqn:E; cbn [default].
  - split_and!; [reflexivity | reflexivity |].
    intros Hd. exfalso. exact (description_of_documented N d E Hd).
  - split_and!; [reflexivity | contradiction | reflexivity].
Qed.

Lemma GetExitCode_agrees_with_description_witness :
  (GetExitCode (Some (wrapError "exec" (CodeExitError (errorString "exit") 139)))).1 = 139 /\
  (GetExitCode (Some (wrapError "exec" (CodeExitError (errorString "exit") 139)))).2
  = GetExitCodeDescription 139.
Proof.
  pose proof (GetExitCode_agrees_with_description
                (wrapError "exec" (CodeExitError (errorString "exit") 139)) 139
                (carries_wrapped _ _ _ (carries_here _ _))) as (H1 & H2 & _).
  split; [exact H1|]. apply H2. vm_compute. discriminate.
Defined.

(** ** Lines, continued *)

Lemma Split_clean (s : string) (sep : ascii) :
  occurs sep s = false -> Split s sep = [s].
Proof.
  induction s as [|c rest IH]; [reflexivity|].
  cbn [occurs Split]. intros [Hc Hrest]%orb_false_iff.
  rewrite Hc, (IH Hrest). reflexivity.
Qed.

Lemma Split_piece (piece rest : string) (sep : ascii) :
  occurs sep piece = false ->
  Split (piece ++ String sep rest) sep = piece :: Split rest sep.
Proof.
  induction piece as [|c piece IH].
  - intros _. change ("" ++ String sep rest) with (String sep rest).
    cbn [Split]. rewrite Ascii.eqb_refl. reflexivity.
  - cbn [occurs]. intros [Hc Hpiece]%orb_false_iff.
    change (String c piece ++ String sep rest) with (String c (piece ++ String sep rest)).
    cbn [Split]. rewrite Hc, (IH Hpiece). reflexivity.
Qed.

Lemma Split_Join (lines : list string) (sep : ascii) :
  lines <> [] ->
  Forall (fun line => occurs sep line = false) lines ->
  Split (Join lines sep) sep = lines.
Proof.
  induction lines as [|line lines IH]; [contradiction|].
  intros _ Hclean. inversion Hclean as [|? ? Hline Hlines]; subst.
  destruct lines as [|next lines].
  - cbn [Join]. apply Split_clean, Hline.
  - change (Join (line :: next :: lines) sep)
      with (line ++ String sep (Join (next :: lines) sep)).
    rewrite Split_piece by exact Hline.
    rewrite IH by (discriminate || exact Hlines). reflexivity.
Qed.

(** X3. A status built from lines joined by newlines has those lines
    back in each of its three fields, provided there is at least one
    line and no line holds a newline: splitting undoes joining. *)
Theorem NewExecutionStatus_round_trip (pod container : string) (retCode : ExitCode)
    (errorLines stdoutLines stderrLines : list string) :
  errorLines <> [] -> stdoutLines <> [] -> stderrLines <> [] ->
  Forall (fun line => occurs LF line = false) (errorLines ++ stdoutLines ++ stderrLines) ->
  let status := NewExecutionStatus pod container retCode
                  (Join errorLines LF) (Join stdoutLines LF) (Join stderrLines LF) in
  Error status = errorLines /\ Stdout status = stdoutLines /\ Stderr status = stderrLines.
Proof.
  intros He Ho Hs Hclean. apply Forall_app in Hclean as [Hce Hclean].
  apply Forall_app in Hclean as [Hco Hcs].
  cbn [NewExecutionStatus Error Stdout Stderr]. rewrite !Split_Join by assumption.
  repeat split.
Qed.

Lemma NewExecutionStatus_round_trip_witness :
  Stdout (NewExecutionStatus "pod" "main" 0 "" (Join ["a"; "b"; ""] LF) "") = ["a"; "b"; ""].
Proof.
  apply (NewExecutionStatus_round_trip "pod" "main" 0 [""] ["a"; "b"; ""] [""]);
    try discriminate.
  repeat constructor.
Defined.

(** ** The execution gateway, continued *)

(** [Exec] in one equation: the status is built from what [exec] returns
    under a context [timeout] after the start. *)
Lemma Exec_unfold (k8s : K8SExec) (podName containerName : string) (args : list string)
    (stdin : option string) (timeout t : Z) :
  Exec k8s podName containerName args stdin timeout (start t)
  = let r := exec k8s {| Deadline := Some (t + timeout) |} podName containerName args stdin
               false (start t) in
    (NewExecutionStatus podName containerName
       (if errors_Is_DeadlineExceeded r.1.2 then ExecutionTimeOut else r.1.1)
       (match r.1.2 with Some e => err_Error e | None => "" end)
       (stdout r.2) (stderr r.2), r.2).
Proof.
  unfold Exec. unfold mbind at 1 2, M_bind at 1 2, new_buffers, WithTimeout.
  cbn [start clock calls Deadline Background stdout stderr].
  change {| clock := t; stdout := ""; stderr := ""; calls := [] |} with (start t).
  unfold mbind, M_bind, stdout_String, stderr_String, mret, M_ret.
  destruct (exec _ _ _ _ _ _ _ _) as [[retCode err] st]. reflexivity.
Qed.

Lemma ExecWithContext_unfold (k8s : K8SExec) (ctx : Context) (podName containerName : string)
    (args : list string) (stdin : option string) (t : Z) :
  ExecWithContext k8s ctx podName containerName args stdin (start t)
  = let r := exec k8s ctx podName containerName args stdin false (start t) in
    (NewExecutionStatus podName containerName r.1.1
       (match r.1.2 with Some e => err_Error e | None => "" end)
       (stdout r.2) (stderr r.2), r.2).
Proof.
  unfold ExecWithContext. unfold mbind at 1, M_bind at 1, new_buffers.
  cbn [start clock calls stdout stderr].
  change {| clock := t; stdout := ""; stderr := ""; calls := [] |} with (start t).
  unfold mbind, M_bind, stdout_String, stderr_String, mret, M_ret.
  destruct (exec _ _ _ _ _ _ _ _) as [[retCode err] st]. reflexivity.
Qed.

(** What [exec] returns is one of three things. *)
Lemma exec_result_cases (k8s : K8SExec) (ctx : Context) (podName containerName : string)
    (cmd : list string) (stdin : option string) (tty : bool) (st : State) :
  let r := (exec k8s ctx podName containerName cmd stdin tty st).1 in
  r = (Success, None)
  \/ (exists inner Code, r = (Code, Some (CodeExitError inner Code)))
  \/ (exists e, r = (InternalAppError, Some e)).
Proof.
  cbv zeta. rewrite exec_unfold. cbv zeta.
  destruct (dial _) as [err|]; [right; right; eauto|].
  destruct (StreamWithContext _ _ _) as [[e|] st']; cbn [fst classify]; [|auto].
  destruct (As_chain e) as [[inner Code]|]; [right; left; eauto | right; right; eauto].
Qed.

(** X4. [Exec] with a timeout and [ExecWithContext] under a context
    with the same deadline leave the same state and build the same
    status, but for the code: the codes are equal unless [Exec] reports
    [ExecutionTimeOut], which can only replace [InternalAppError]. *)
Theorem Exec_agrees_with_ExecWithContext (k8s : K8SExec) (podName containerName : string)
    (args : list string) (stdin : option string) (timeout t : Z) :
  let a := Exec k8s podName containerName args stdin timeout (start t) in
  let b := ExecWithContext k8s {| Deadline := Some (t + timeout) |} podName containerName
             args stdin (start t) in
  a.2 = b.2 /\
  Pod a.1 = Pod b.1 /\ Container a.1 = Container b.1 /\
  Error a.1 = Error b.1 /\ Stdout a.1 = Stdout b.1 /\ Stderr a.1 = Stderr b.1 /\
  (RetCode a.1 = RetCode b.1 \/ RetCode a.1 = ExecutionTimeOut) /\
  (RetCode b.1 <> InternalAppError -> RetCode a.1 = RetCode b.1).
Proof.
  cbv zeta. rewrite Exec_unfold, ExecWithContext_unfold. cbv zeta.
  cbn [fst snd NewExecutionStatus Pod Container Error Stdout Stderr RetCode].
  split_and!; try reflexivity.
  - destruct (errors_Is_DeadlineExceeded _); auto.
  - pose proof (exec_result_cases k8s {| Deadline := Some (t + timeout) |} podName
                  containerName args stdin false (start t)) as Hcases.
    cbv zeta in Hcases.
    destruct Hcases as [H | [(inner & Code & H) | (e & H)]]; rewrite H; cbn [fst snd];
      try reflexivity.
    intros Hne. contradiction.
Qed.





(** X7. When the connection cannot be set up, no stream is run: the
    clock does not move, the output fields are each the one empty line,
    the error text is that of the connection error, and the code is
    [InternalAppError], or [ExecutionTimeOut] if that error wraps
    [context.DeadlineExceeded]. *)
Theorem Exec_dial_failure (k8s : K8SExec) (podName containerName : string)
    (args : list string) (stdin : option string) (timeout t : Z) (err : error) :
  let p := Pods_Exec (Clientset_ k8s) t
             (execRequest k8s podName containerName args stdin false) in
  dial p = Some err ->
  let r := Exec k8s podName containerName args stdin timeout (start t) in
  RetCode r.1 = (if Is_chain err then ExecutionTimeOut else InternalAppError) /\
  Error r.1 = Split (err_Error err) LF /\
  Stdout r.1 = [""] /\ Stderr r.1 = [""] /\
  clock r.2 = t /\ length (calls r.2) = 1%nat.
Proof.
  intros p Hdial. cbv zeta. rewrite Exec_unfold. cbv zeta.
  rewrite exec_unfold. cbn [start clock]. fold p. rewrite Hdial.
  cbn [record_call fst snd errors_Is_DeadlineExceeded stdout stderr clock calls start
       NewExecutionStatus RetCode Error Stdout Stderr].
  repeat split.
Qed.

Lemma Exec_dial_failure_witness :
  let r := Exec unreachable "pod" "main" ["id"] None (5 * Second) (start 0) in
  RetCode r.1 = InternalAppError /\ Error r.1 = ["dial tcp: connection refused"] /\
  clock r.2 = 0.
Proof.
  pose proof (Exec_dial_failure unreachable "pod" "main" ["id"] None (5 * Second) 0
                (errorString "dial tcp: connection refused") eq_refl)
    as (H1 & H2 & _ & _ & H5 & _).
  cbv zeta in *. split_and!; [exact H1 | rewrite H2; reflexivity | exact H5].
Defined.

(** X8. A utility that is there but runs for more than the five seconds
    of the probe is reported absent: the expired deadline is read as
    [InternalAppError]. *)
Theorem CheckUtilInContainer_slow_is_absent (k8s : K8SExec)
    (podName containerName util : string) (t : Z) :
  let p := Pods_Exec (Clientset_ k8s) t
             (execRequest k8s podName containerName [util] None false) in
  dial p = None -> 5 * Second < Z.max 0 (takes p) ->
  (CheckUtilInContainer k8s podName containerName util (start t)).1 = false.
Proof.
  intros p Hdial Hslow. rewrite CheckUtilInContainer_unfold. cbv zeta.
  rewrite exec_unfold. cbn [start clock]. fold p. rewrite Hdial.
  erewrite StreamWithContext_expired;
    [|reflexivity|cbn [record_call snd clock start]; lia].
  reflexivity.
Qed.

Lemma CheckUtilInContainer_slow_is_absent_witness :
  (CheckUtilInContainer hanging "pod" "main" "top" (start 0)).1 = false.
Proof.
  apply (CheckUtilInContainer_slow_is_absent hanging "pod" "main" "top" 0 eq_refl).
  vm_compute. reflexivity.
Defined.

(** ** The file probes, continued *)

(** X9. [ReadFile] issues the first [n] of its four commands, in the
    order [cat], [sed], [tail], read loop, for some [n] from 1 to 4;
    every attempt before the last failed; the last succeeded unless it
    was the fourth; the error returned is the last attempt's; and the
    string returned is what all the attempts wrote, one after the
    other. *)
Theorem ReadFile_attempts_in_order (k8s : K8SExec) (podName containerName filePath : string)
    (t : Z) :
  let r := ReadFile k8s podName containerName filePath (start t) in
  exists (n : nat) (earlier : list Call) (c : Call),
    (1 <= n <= 4)%nat /\
    commands r.2 = take n (readAttempts filePath) /\
    calls r.2 = (earlier ++ [c])%list /\
    Forall (fun c' => (callResult k8s c').1 <> Success) earlier /\
    ((n < 4)%nat -> (callResult k8s c).1 = Success) /\
    r.1.2 = (callResult k8s c).2 /\
    r.1.1 = written k8s (calls r.2).
Proof.
  intros r.
  destruct (ReadFile_trace_of k8s podName containerName filePath t r eq_refl)
    as (n & earlier & c & H1 & H2 & H3 & H4 & H5 & H6 & H7 & _).
  exists n, earlier, c. split_and!; try assumption; apply H1.
Qed.

Lemma written_snoc (k8s : K8SExec) (cs : list Call) (c : Call) :
  written k8s (cs ++ [c]) = written k8s cs ++ callOutput k8s c.
Proof. unfold written. rewrite fold_left_app. reflexivity. Qed.

Lemma written_silent (k8s : K8SExec) (cs : list Call) :
  Forall (fun c => callOutput k8s c = "") cs -> written k8s cs = "".
Proof.
  induction cs as [|c cs IH] using rev_ind; [reflexivity|].
  intros [Hcs Hc]%Forall_app. rewrite written_snoc, (IH Hcs).
  inversion Hc; subst. assumption.
Qed.

(** X10. When no failed attempt wrote to the standard output, the
    string [ReadFile] returns is the output of its last attempt alone:
    of the first successful one, if any succeeded. *)
Theorem ReadFile_clean_output (k8s : K8SExec) (podName containerName filePath : string)
    (t : Z) :
  let r := ReadFile k8s podName containerName filePath (start t) in
  Forall (fun c => (callResult k8s c).1 <> Success -> callOutput k8s c = "") (calls r.2) ->
  exists c, last (calls r.2) = Some c /\ r.1.1 = callOutput k8s c.
Proof.
  intros r Hsilent.
  destruct (ReadFile_trace_of k8s podName containerName filePath t r eq_refl)
    as (n & earlier & c & _ & _ & Hcalls & Hfailed & _ & _ & Hout & _).
  exists c. rewrite Hout, Hcalls. split; [apply last_snoc|].
  rewrite written_snoc, written_silent; [reflexivity|].
  rewrite Hcalls in Hsilent. apply Forall_app in Hsilent as [Hearlier _].
  rewrite Forall_forall in *. intros c' Hc'. apply (Hearlier c' Hc'), (Hfailed c' Hc').
Qed.

Lemma ReadFile_clean_output_witness :
  exists c, last (calls (ReadFile shellOnly "pod" "main" "/etc/hostname" (start 0)).2) = Some c
            /\ (ReadFile shellOnly "pod" "main" "/etc/hostname" (start 0)).1.1
               = callOutput shellOnly c.
Proof.
  apply (ReadFile_clean_output shellOnly "pod" "main" "/etc/hostname" 0).
  match goal with
  | |- Forall ?P ?l => let v := eval vm_compute in l in change (Forall P v)
  end.
  repeat (constructor;
          [first [ intros _; vm_compute; reflexivity
                 | intros H; exfalso; apply H; vm_compute; reflexivity ] |]).
  constructor.
Defined.

(** A call that ends before the deadline of its context: its result is
    the classified exit of the process and its output all the process
    wrote. *)
Lemma call_completes (k8s : K8SExec) (c : Call) :
  dial (callProcess k8s c) = None ->
  (forall d, Deadline (call_ctx c) = Some d ->
             call_time c + Z.max 0 (takes (callProcess k8s c)) <= d) ->
  callResult k8s c = classify (exit (callProcess k8s c)) /\
  callOutput k8s c = wrote_out (callProcess k8s c) (Z.max 0 (takes (callProcess k8s c))).
Proof.
  intros Hdial Htime. unfold callResult, callOutput, callStream. rewrite Hdial.
  rewrite StreamWithContext_completes by exact Htime.
  split; reflexivity.
Qed.

(** X11. When [cat] ends within the five seconds with status zero, it
    is the only command issued and its output is returned with no
    error. *)
Theorem ReadFile_first_attempt (k8s : K8SExec) (podName containerName filePath : string)
    (t : Z) :
  let p := Pods_Exec (Clientset_ k8s) t
             (execRequest k8s podName containerName ["cat"; filePath] None false) in
  dial p = None -> Z.max 0 (takes p) <= 5 * Second -> exit p = None ->
  let r := ReadFile k8s podName containerName filePath (start t) in
  r.1 = (wrote_out p (Z.max 0 (takes p)), None) /\
  commands r.2 = [["cat"; filePath]].
Proof.
  intros p Hdial Htime Hexit r.
  assert (Hr : ReadFile k8s podName containerName filePath (start t) = r) by reflexivity.
  clearbody r. unfold ReadFile in Hr.
  unfold mbind, M_bind, new_buffers, WithTimeout, stdout_String, mret, M_ret in Hr.
  cbn [start clock calls Deadline Background stdout stderr] in Hr.
  change {| clock := t; stdout := ""; stderr := ""; calls := [] |} with (start t) in Hr.
  set (ctx := {| Deadline := Some (t + 5 * Second) |}) in *.
  next_attempt Hr st1 rc1 e1 R1 Hc1 Ho1 Hk1 Hd1.
  match type of R1 with
  | context [callResult _ ?c] =>
      assert (Htime' : forall d, Deadline (call_ctx c) = Some d ->
                call_time c + Z.max 0 (takes (callProcess k8s c)) <= d)
        by (intros d Hd; injection Hd as <-; unfold callProcess;
            cbn [call_time call_req start clock]; fold p; lia);
      destruct (call_completes k8s c Hdial Htime') as [Hres Hout]
  end.
  rewrite R1 in Hres.
  unfold callProcess in Hres, Hout. cbn [call_time call_req start clock] in Hres, Hout.
  fold p in Hres, Hout. rewrite Hexit in Hres.
  injection Hres as -> ->.
  repeat (destruct (decide (Success <> Success)) as [?|_]; [contradiction|];
          cbv beta iota in Hr).
  subst r. cbn [fst snd]. trace_facts. rewrite Hout. split; reflexivity.
Qed.

Lemma ReadFile_first_attempt_witness :
  (ReadFile healthy "pod" "main" "/etc/hostname" (start 0)).1 = ("hello", None).
Proof.
  apply (ReadFile_first_attempt healthy "pod" "main" "/etc/hostname" 0 eq_refl
           ltac:(vm_compute; discriminate) eq_refl).
Defined.

(** X12. [CheckIfFilePathExists] runs [stat], and the shell test only if
    [stat] failed; its verdict is whether the last command it ran ended
    with status zero. *)
Theorem CheckIfFilePathExists_verdict (k8s : K8SExec)
    (podName containerName filePath : string) (t : Z) :
  let r := CheckIfFilePathExists k8s podName containerName filePath (start t) in
  exists (n : nat) (earlier : list Call) (c : Call),
    (1 <= n <= 2)%nat /\
    commands r.2 = take n (existsAttempts filePath) /\
    calls r.2 = (earlier ++ [c])%list /\
    Forall (fun c' => (callResult k8s c').1 <> Success) earlier /\
    ((n < 2)%nat -> (callResult k8s c).1 = Success) /\
    (r.1 = true <-> (callResult k8s c).1 = Success).
Proof.
  intros r. assert (Hr : CheckIfFilePathExists k8s podName containerName filePath (start t) = r)
    by reflexivity.
  clearbody r. unfold CheckIfFilePathExists in Hr.
  unfold mbind, M_bind, new_buffers, WithTimeout, stdout_String, mret, M_ret in Hr.
  cbn [start clock calls Deadline Background stdout stderr] in Hr.
  change {| clock := t; stdout := ""; stderr := ""; calls := [] |} with (start t) in Hr.
  set (ctx := {| Deadline := Some (t + 5 * Second) |}) in *.
  next_attempt Hr st1 rc1 e1 R1 Hc1 Ho1 Hk1 Hd1.
  test_status Hr rc1 F1.
  - next_attempt Hr st2 rc2 e2 R2 Hc2 Ho2 Hk2 Hd2.
    subst r. cbn [fst snd]. trace_facts.
    eexists 2%nat, [_], _. rewrite R2.
    split_and!; try reflexivity; try lia; try apply bool_decide_eq_true;
      repeat constructor.
    rewrite R1. exact F1.
  - subst r. cbn [fst snd]. trace_facts.
    eexists 1%nat, [], _. rewrite R1.
    split_and!; try reflexivity; try lia; try apply bool_decide_eq_true;
      repeat constructor.
    intros _. cbn [fst]. destruct (decide (rc1 = Success)); [assumption|contradiction].
Qed.

(** [CheckIfFilePathIsReadable] when [stat] ends in time with status
    zero: the verdict is read off the text [stat] printed. *)
Lemma CheckIfFilePathIsReadable_stat_ok (k8s : K8SExec)
    (podName containerName filePath : string) (t : Z) :
  let p := Pods_Exec (Clientset_ k8s) t
             (execRequest k8s podName containerName ["stat"; "-c"; "%a"; filePath]
                None false) in
  dial p = None -> Z.max 0 (takes p) <= 5 * Second -> exit p = None ->
  (CheckIfFilePathIsReadable k8s podName containerName filePath (start t)).1
  = let permStr := wrote_out p (Z.max 0 (takes p)) in
    if (3 <=? String.length permStr)%nat then
      let permStr := if (String.length permStr =? 4)%nat
                     then String.substring 1 (String.length permStr - 1) permStr
                     else permStr in
      negb (Z.land (digit_of (byte_at permStr 0)) readBit =? 0)%Z
      || negb (Z.land (digit_of (byte_at permStr 1)) readBit =? 0)%Z
      || negb (Z.land (digit_of (byte_at permStr 2)) readBit =? 0)%Z
    else false.
Proof.
  intros p Hdial Htime Hexit.
  remember (CheckIfFilePathIsReadable k8s podName containerName filePath (start t)) as r
    eqn:Hr.
  symmetry in Hr. unfold CheckIfFilePathIsReadable in Hr.
  unfold mbind, M_bind, new_buffers, WithTimeout, stdout_String, mret, M_ret in Hr.
  cbn [start clock calls Deadline Background stdout stderr] in Hr.
  change {| clock := t; stdout := ""; stderr := ""; calls := [] |} with (start t) in Hr.
  set (ctx := {| Deadline := Some (t + 5 * Second) |}) in *.
  next_attempt Hr st1 rc1 e1 R1 Hc1 Ho1 Hk1 Hd1.
  match type of R1 with
  | context [callResult _ ?c] =>
      assert (Htime' : forall d, Deadline (call_ctx c) = Some d ->
                call_time c + Z.max 0 (takes (callProcess k8s c)) <= d)
        by (intros d Hd; injection Hd as <-; unfold callProcess;
            cbn [call_time call_req start clock]; fold p; lia);
      destruct (call_completes k8s c Hdial Htime') as [Hres Hout]
  end.
  rewrite R1 in Hres. rewrite Hout in Ho1. clear Hout.
  unfold callProcess in Hres, Ho1. cbn [call_time call_req start clock stdout] in Hres, Ho1.
  fold p in Hres, Ho1. rewrite Hexit in Hres.
  injection Hres as -> ->.
  destruct (decide (Success <> Success)) as [?|_]; [contradiction|].
  cbv beta iota in Hr.
  change ("" ++ wrote_out p (Z.max 0 (takes p))) with (wrote_out p (Z.max 0 (takes p))) in Ho1.
  rewrite Ho1 in Hr. cbv zeta.
  destruct (3 <=? String.length (wrote_out p (Z.max 0 (takes p))))%nat;
    subst r; reflexivity.
Qed.

Lemma octal_read_bit (d : Z) :
  0 <= d <= 7 ->
  negb (Z.land (digit_of (Z.of_N (N_of_ascii (digitChar d)))) readBit =? 0)%Z = (4 <=? d)%Z.
Proof.
  intros Hd.
  assert (Hcases : d = 0 \/ d = 1 \/ d = 2 \/ d = 3 \/ d = 4 \/ d = 5 \/ d = 6 \/ d = 7) by lia.
  destruct Hcases as [-> | [-> | [-> | [-> | [-> | [-> | [-> | ->]]]]]]]; reflexivity.
Qed.

(** X14. The mode [stat -c %a] prints ends with a newline.  For a mode
    of three octal digits the text has four bytes, so the first digit,
    the owner's, is dropped and the newline is read as the third: the
    verdict is whether the group or the others may read.  For a mode of
    four digits the special digit, the owner's and the group's are
    read, and the others' digit is not. *)
Theorem CheckIfFilePathIsReadable_mode_text (k8s : K8SExec)
    (podName containerName filePath : string) (t : Z) :
  let p := Pods_Exec (Clientset_ k8s) t
             (execRequest k8s podName containerName ["stat"; "-c"; "%a"; filePath]
                None false) in
  dial p = None -> Z.max 0 (takes p) <= 5 * Second -> exit p = None ->
  let verdict := (CheckIfFilePathIsReadable k8s podName containerName filePath (start t)).1 in
  (forall owner group others,
     0 <= owner <= 7 -> 0 <= group <= 7 -> 0 <= others <= 7 ->
     wrote_out p (Z.max 0 (takes p))
     = String (digitChar owner) (String (digitChar group) (String (digitChar others)
         (String LF ""))) ->
     verdict = (4 <=? group)%Z || (4 <=? others)%Z) /\
  (forall special owner group others,
     0 <= special <= 7 -> 0 <= owner <= 7 -> 0 <= group <= 7 -> 0 <= others <= 7 ->
     wrote_out p (Z.max 0 (takes p))
     = String (digitChar special) (String (digitChar owner) (String (digitChar group)
         (String (digitChar others) (String LF "")))) ->
     verdict = (4 <=? special)%Z || (4 <=? owner)%Z || (4 <=? group)%Z).
Proof.
  intros p Hdial Htime Hexit verdict. subst verdict.
  rewrite (CheckIfFilePathIsReadable_stat_ok k8s podName containerName filePath t
             Hdial Htime Hexit).
  fold p. cbv zeta. split.
  - intros owner group others Ho Hg Hs ->.
    cbn [String.length Nat.leb Nat.eqb Nat.sub String.substring byte_at String.get].
    rewrite !octal_read_bit by assumption.
    change (negb (Z.land (digit_of (Z.of_N (N_of_ascii LF))) readBit =? 0)%Z) with false.
    rewrite orb_false_r. reflexivity.
  - intros special owner group others Hsp Ho Hg Hs ->.
    cbn [String.length Nat.leb Nat.eqb Nat.sub String.substring byte_at String.get].
    rewrite !octal_read_bit by assumption. reflexivity.
Qed.

(** A file of mode 400, which its owner may read, is reported
    unreadable. *)
Lemma CheckIfFilePathIsReadable_mode_text_witness :
  (CheckIfFilePathIsReadable mode400 "pod" "main" "/etc/shadow" (start 0)).1 = false.
Proof.
  apply (proj1 (CheckIfFilePathIsReadable_mode_text mode400 "pod" "main" "/etc/shadow" 0
                  eq_refl ltac:(vm_compute; discriminate) eq_refl) 4 0 0);
    try lia. reflexivity.
Defined.

(** X13. [CheckIfFilePathIsReadable] runs [stat -c %a] first.  If that
    succeeds it is the only command run.  If it fails, the shell's
    [test -r] is run next and its status alone is the verdict. *)
Theorem CheckIfFilePathIsReadable_fallback (k8s : K8SExec)
    (podName containerName filePath : string) (t : Z) :
  let r := CheckIfFilePathIsReadable k8s podName containerName filePath (start t) in
  exists c1,
    call_time c1 = t /\
    req_Command (call_req c1) = ["stat"; "-c"; "%a"; filePath] /\
    (((callResult k8s c1).1 = Success /\ calls r.2 = [c1])
     \/ ((callResult k8s c1).1 <> Success /\
         exists c2, calls r.2 = [c1; c2] /\
                    req_Command (call_req c2) = ["sh"; "-c"; "test -r '" ++ filePath ++ "'"] /\
                    (r.1 = true <-> (callResult k8s c2).1 = Success))).
Proof.
  intros r.
  assert (Hr : CheckIfFilePathIsReadable k8s podName containerName filePath (start t) = r)
    by reflexivity.
  clearbody r. unfold CheckIfFilePathIsReadable in Hr.
  unfold mbind, M_bind, new_buffers, WithTimeout, stdout_String, mret, M_ret in Hr.
  cbn [start clock calls Deadline Background stdout stderr] in Hr.
  change {| clock := t; stdout := ""; stderr := ""; calls := [] |} with (start t) in Hr.
  set (ctx := {| Deadline := Some (t + 5 * Second) |}) in *.
  next_attempt Hr st1 rc1 e1 R1 Hc1 Ho1 Hk1 Hd1.
  test_status Hr rc1 F1.
  - next_attempt Hr st2 rc2 e2 R2 Hc2 Ho2 Hk2 Hd2.
    subst r. cbn [fst snd]. trace_facts.
    eexists. split; [|split]; [| |right; rewrite R1; split; [exact F1|]].
    + reflexivity.
    + reflexivity.
    + eexists. split; [reflexivity|]. split; [reflexivity|].
      rewrite R2. apply bool_decide_eq_true.
  - assert (rc1 = Success) as -> by (destruct (decide (rc1 = Success)); [assumption|contradiction]).
    destruct (3 <=? String.length (stdout st1))%nat;
      subst r; cbn [fst snd]; trace_facts;
      (eexists; split; [|split]; [| |left; rewrite R1; split; reflexivity]; reflexivity).
Qed.

(** ** Label selectors *)

Lemma selectorParts_map (labels : list (string * string)) (parts : list string) :
  fold_left (fun parts kv => (parts ++ [(fst kv ++ "=" ++ snd kv)%string])%list) labels parts
  = (parts ++ map labelText labels)%list.
Proof.
  revert parts. induction labels as [|kv labels IH]; intros parts; cbn [fold_left map].
  - rewrite app_nil_r. reflexivity.
  - rewrite IH, <- app_assoc. reflexivity.
Qed.

Lemma concat_Join (parts : list string) : String.concat "," parts = Join parts comma.
Proof.
  induction parts as [|part parts IH]; [reflexivity|].
  destruct parts as [|next parts]; [reflexivity|].
  change (String.concat "," (part :: next :: parts))
    with (part ++ "," ++ String.concat "," (next :: parts)).
  rewrite IH. reflexivity.
Qed.

Lemma occurs_append (c : ascii) (a b : string) :
  occurs c (a ++ b) = occurs c a || occurs c b.
Proof.
  induction a as [|x a IH]; [reflexivity|].
  change (String x a ++ b) with (String x (a ++ b)). cbn [occurs].
  rewrite IH, orb_assoc. reflexivity.
Qed.

(** X15. The selector text of a non-empty label map whose keys and
    values hold no comma splits at the commas into the [key=value]
    texts of the labels, in the order of the iteration: nothing is lost
    or merged.  The empty map gives the empty text. *)
Theorem mapToLabelSelector_round_trip (labels : list (string * string)) :
  mapToLabelSelector [] = "" /\
  (labels <> [] ->
   Forall (fun kv => occurs comma kv.1 = false /\ occurs comma kv.2 = false) labels ->
   Split (mapToLabelSelector labels) comma = map labelText labels).
Proof.
  split; [reflexivity|]. intros Hne Hclean.
  unfold mapToLabelSelector. rewrite selectorParts_map. cbn [app].
  rewrite concat_Join. apply Split_Join.
  - destruct labels; [contradiction | discriminate].
  - apply Forall_forall. intros part [kv [<- Hkv]]%list_elem_of_In%in_map_iff.
    apply list_elem_of_In in Hkv.
    destruct (proj1 (Forall_forall _ _) Hclean kv Hkv) as [Hk Hv].
    unfold labelText. rewrite !occurs_append, Hk, Hv. reflexivity.
Qed.

Lemma mapToLabelSelector_round_trip_witness :
  Split (mapToLabelSelector [("app", "web"); ("tier", "front")]) comma
  = ["app=web"; "tier=front"].
Proof.
  apply (proj2 (mapToLabelSelector_round_trip [("app", "web"); ("tier", "front")]));
    [discriminate | repeat constructor].
Defined.

(** ** Deduplicating pods, continued *)

(** X16. When the four top-level listings succeed, [GetUniquePods]
    returns the number of pods of the full listing, and a list made of
    the first match of every group that has one (deployments, then
    stateful sets, then daemon sets, each kind in the order listed),
    followed by the pods of the full listing, in its order, whose name
    no group matched. *)
Theorem GetUniquePods_groups_then_rest (k8s : K8SExec) (deployments : list Deployment)
    (statefulSets : list StatefulSet) (daemonSets : list DaemonSet) (items : list PodT) :
  GetDeployments k8s = Ok deployments ->
  GetStatefulSets k8s = Ok statefulSets ->
  GetDaemonSets k8s = Ok daemonSets ->
  GetPods k8s {| LabelSelector_ := "" |} = Ok items ->
  let groups := (map deployment_Selector deployments
                 ++ map statefulSet_Selector statefulSets
                 ++ map daemonSet_Selector daemonSets)%list in
  GetUniquePods k8s
  = (Z.of_nat (length items),
     (representatives k8s groups ++ filter (fun p => Name p ∉ members k8s groups) items)%list,
     None).
Proof. apply GetUniquePods_shape. Qed.

Lemma GetUniquePods_groups_then_rest_witness :
  GetUniquePods flaky = (3, [pod "web-1"; pod "solo"], None).
Proof.
  rewrite (GetUniquePods_groups_then_rest flaky _ _ _ _ eq_refl eq_refl eq_refl eq_refl).
  vm_compute. reflexivity.
Defined.

(** X17. The names in the list are distinct whenever the pods of the
    full listing have distinct names and the first matches of the
    groups have: only a pod that is the first match of two groups is
    repeated. *)
Theorem GetUniquePods_distinct (k8s : K8SExec) (deployments : list Deployment)
    (statefulSets : list StatefulSet) (daemonSets : list DaemonSet) (items : list PodT) :
  GetDeployments k8s = Ok deployments ->
  GetStatefulSets k8s = Ok statefulSets ->
  GetDaemonSets k8s = Ok daemonSets ->
  GetPods k8s {| LabelSelector_ := "" |} = Ok items ->
  NoDup (Name <$> items) ->
  NoDup (Name <$> representatives k8s
                    (map deployment_Selector deployments
                     ++ map statefulSet_Selector statefulSets
                     ++ map daemonSet_Selector daemonSets)%list) ->
  NoDup (Name <$> (GetUniquePods k8s).1.2).
Proof. apply GetUniquePods_NoDup. Qed.

Lemma GetUniquePods_distinct_witness : NoDup (Name <$> (GetUniquePods flaky).1.2).
Proof.
  apply (GetUniquePods_distinct flaky _ _ _ _ eq_refl eq_refl eq_refl eq_refl).
  - apply (bool_decide_unpack _). vm_compute. reflexivity.
  - apply (bool_decide_unpack _). vm_compute. reflexivity.
Defined.

Lemma members_matched (k8s : K8SExec) (selectors : list LabelSelector) (name : string) :
  name ∈ members k8s selectors ->
  exists selector, selector ∈ selectors /\ name ∈ map Name (matched k8s selector).
Proof.
  unfold members. intros Hin%list_elem_of_In%in_flat_map.
  destruct Hin as (selector & Hsel & Hname).
  exists selector. split; apply list_elem_of_In; assumption.
Qed.

Lemma representative_of_matched (k8s : K8SExec) (selectors : list LabelSelector)
    (selector : LabelSelector) (rep : PodT) (others : list PodT) :
  selector ∈ selectors -> matched k8s selector = rep :: others ->
  rep ∈ representatives k8s selectors.
Proof.
  intros Hsel Hm. unfold representatives. apply list_elem_of_In, in_flat_map.
  exists selector. split; [apply list_elem_of_In, Hsel|]. rewrite Hm. left. reflexivity.
Qed.

(** X18. No pod of the full listing goes unrepresented: each is in the
    returned list itself, or is matched by a group whose first match is
    in the returned list. *)
Theorem GetUniquePods_covers (k8s : K8SExec) (deployments : list Deployment)
    (statefulSets : list StatefulSet) (daemonSets : list DaemonSet) (items : list PodT)
    (p : PodT) :
  GetDeployments k8s = Ok deployments ->
  GetStatefulSets k8s = Ok statefulSets ->
  GetDaemonSets k8s = Ok daemonSets ->
  GetPods k8s {| LabelSelector_ := "" |} = Ok items ->
  p ∈ items ->
  p ∈ (GetUniquePods k8s).1.2
  \/ exists selector rep others,
       selector ∈ (map deployment_Selector deployments
                   ++ map statefulSet_Selector statefulSets
                   ++ map daemonSet_Selector daemonSets)%list /\
       matched k8s selector = rep :: others /\
       Name p ∈ map Name (rep :: others) /\
       rep ∈ (GetUniquePods k8s).1.2.
Proof.
  intros Hd Hs Hds Hitems Hp.
  rewrite (GetUniquePods_shape k8s _ _ _ _ Hd Hs Hds Hitems). cbn [fst snd].
  set (groups := (map deployment_Selector deployments ++ _)%list).
  destruct (decide (Name p ∈ members k8s groups)) as [Hin|Hout].
  - right. destruct (members_matched k8s groups (Name p) Hin) as (selector & Hsel & Hname).
    destruct (matched k8s selector) as [|rep others] eqn:Hm.
    + apply elem_of_nil in Hname as [].
    + exists selector, rep, others. split_and!; try assumption; try reflexivity.
      apply elem_of_app. left. eapply representative_of_matched; eassumption.
  - left. apply elem_of_app. right. apply list_elem_of_filter. auto.
Qed.

Lemma GetUniquePods_covers_witness :
  pod "web-2" ∈ (GetUniquePods overlapping).1.2
  \/ exists selector rep others,
       selector ∈ [selectorOf "app" "web"; selectorOf "tier" "front"] /\
       matched overlapping selector = rep :: others /\
       Name (pod "web-2") ∈ map Name (rep :: others) /\
       rep ∈ (GetUniquePods overlapping).1.2.
Proof.
  apply (GetUniquePods_covers overlapping _ _ _ _ (pod "web-2")
           eq_refl eq_refl eq_refl eq_refl).
  apply list_elem_of_In. vm_compute. tauto.
Defined.

Lemma filter_none {A : Type} (P : A -> Prop) `{forall x, Decision (P x)} (l : list A) :
  (forall x, x ∈ l -> ~ P x) -> filter P l = [].
Proof.
  induction l as [|x l IH]; intros Hnone; [reflexivity|].
  rewrite filter_cons_False by (apply Hnone, elem_of_cons; auto).
  apply IH. intros y Hy. apply Hnone, elem_of_cons. auto.
Qed.

(** X19. A group whose selector has no [matchLabels] is listed with the
    empty selector text, which matches every pod: then every pod counts
    as a member, and the list holds first matches only, no pod from the
    full listing. *)
Theorem GetUniquePods_empty_selector (k8s : K8SExec) (deployments : list Deployment)
    (statefulSets : list StatefulSet) (daemonSets : list DaemonSet) (items : list PodT) :
  GetDeployments k8s = Ok deployments ->
  GetStatefulSets k8s = Ok statefulSets ->
  GetDaemonSets k8s = Ok daemonSets ->
  GetPods k8s {| LabelSelector_ := "" |} = Ok items ->
  let groups := (map deployment_Selector deployments
                 ++ map statefulSet_Selector statefulSets
                 ++ map daemonSet_Selector daemonSets)%list in
  {| MatchLabels := [] |} ∈ groups ->
  (GetUniquePods k8s).1.2 = representatives k8s groups /\
  (GetUniquePods k8s).1.1 = Z.of_nat (length items).
Proof.
  intros Hd Hs Hds Hitems groups Hall.
  rewrite (GetUniquePods_shape k8s _ _ _ _ Hd Hs Hds Hitems). cbn [fst snd].
  fold groups. split; [|reflexivity].
  assert (Hnone : filter (fun p => Name p ∉ members k8s groups) items = []).
  { apply filter_none. intros p Hp Hnot. apply Hnot.
    unfold members. apply list_elem_of_In, in_flat_map.
    exists {| MatchLabels := [] |}. split; [apply list_elem_of_In, Hall|].
    unfold matched, selectorOptions. cbn [MatchLabels].
    change (mapToLabelSelector []) with "". rewrite Hitems.
    apply in_map, list_elem_of_In, Hp. }
  rewrite Hnone, app_nil_r. reflexivity.
Qed.

Lemma GetUniquePods_empty_selector_witness :
  GetUniquePods catchAll = (3, [pod "db-0"], None).
Proof.
  destruct (GetUniquePods_empty_selector catchAll _ _ _ _ eq_refl eq_refl eq_refl eq_refl)
    as [Hlist Hcount].
  - apply list_elem_of_In. vm_compute. tauto.
  - vm_compute. reflexivity.
Defined.

(** ** Listing the images *)

Lemma slices_Contains_spec (images : list string) (image : string) :
  slices_Contains images image = true <-> image ∈ images.
Proof.
  unfold slices_Contains. rewrite existsb_exists, list_elem_of_In. split.
  - intros (seen & Hin & Heq%String.eqb_eq). subst. exact Hin.
  - intros Hin. exists image. split; [exact Hin | apply String.eqb_refl].
Qed.

Lemma appendNew_app (images more1 more2 : list string) :
  appendNew images (more1 ++ more2) = appendNew (appendNew images more1) more2.
Proof. unfold appendNew. apply fold_left_app. Qed.

Lemma addImages_appendNew (images : list string) (containers : list ContainerT) :
  addImages images containers = appendNew images (map Image containers).
Proof.
  unfold addImages, appendNew. revert images.
  induction containers as [|c containers IH]; intros images; [reflexivity|].
  cbn [fold_left map]. apply IH.
Qed.

(** The two loops of [GetUniqueImages], flattened. *)
Lemma GetUniqueImages_loop (Spec_Containers : PodT -> list ContainerT) (items : list PodT)
    (acc : Z * list string) :
  fold_left (fun acc pod =>
               (acc.1 + Z.of_nat (length (Spec_Containers pod)),
                addImages acc.2 (Spec_Containers pod))) items acc
  = (acc.1 + Z.of_nat (length (allImages Spec_Containers items)),
     appendNew acc.2 (allImages Spec_Containers items)).
Proof.
  revert acc. induction items as [|p items IH]; intros [count images]; cbn [fold_left].
  - cbn. rewrite Z.add_0_r. reflexivity.
  - rewrite IH. cbn [fst snd]. unfold allImages. cbn [flat_map].
    rewrite length_app, length_map, appendNew_app, addImages_appendNew.
    f_equal. lia.
Qed.

Lemma appendNew_spec (images more : list string) :
  (NoDup images -> NoDup (appendNew images more)) /\
  (forall image, image ∈ appendNew images more <-> image ∈ images \/ image ∈ more) /\
  (exists added, appendNew images more = (images ++ added)%list /\ added `sublist_of` more).
Proof.
  revert images. induction more as [|x more IH]; intros images.
  - cbn. split_and!; [auto | |].
    + intros image. rewrite elem_of_nil. tauto.
    + exists []. rewrite app_nil_r. split; [reflexivity | constructor].
  - change (appendNew images (x :: more))
      with (appendNew (if slices_Contains images x then images else (images ++ [x])%list) more).
    destruct (slices_Contains images x) eqn:Hc.
    + apply slices_Contains_spec in Hc.
      destruct (IH images) as (Hnd & Hin & added & Heq & Hsub).
      split_and!; [exact Hnd | |].
      * intros image. rewrite Hin, elem_of_cons. split; [tauto|].
        intros [H|[->|H]]; auto.
      * exists added. split; [exact Heq | apply sublist_cons, Hsub].
    + assert (Hnot : x ∉ images).
      { intros Hin%slices_Contains_spec. congruence. }
      destruct (IH (images ++ [x])%list) as (Hnd & Hin & added & Heq & Hsub).
      split_and!.
      * intros Himages. apply Hnd. apply NoDup_app. split_and!; [exact Himages | |].
        -- intros y Hy ->%list_elem_of_singleton. contradiction.
        -- apply NoDup_singleton.
      * intros image. rewrite Hin, elem_of_app, list_elem_of_singleton, elem_of_cons. tauto.
      * exists (x :: added). rewrite Heq, <- app_assoc. split; [reflexivity|].
        apply sublist_skip, Hsub.
Qed.



Lemma allImages_length (Spec_Containers : PodT -> list ContainerT) (items : list PodT) :
  length (allImages Spec_Containers items) = length (flat_map Spec_Containers items).
Proof.
  unfold allImages. induction items as [|p items IH]; [reflexivity|].
  cbn [flat_map]. rewrite !length_app, length_map, IH. reflexivity.
Qed.

(** X21. The count [GetUniqueImages] returns is the number of containers
    of all the pods listed, so it is at least the number of images
    returned; a failed listing gives the error with a zero count and no
    image. *)
Theorem GetUniqueImages_count (k8s : K8SExec) (Spec_Containers : PodT -> list ContainerT) :
  (forall items, GetPods k8s {| LabelSelector_ := "" |} = Ok items ->
     let r := GetUniqueImages k8s Spec_Containers in
     r.1.1 = Z.of_nat (length (flat_map Spec_Containers items)) /\
     Z.of_nat (length r.1.2) <= r.1.1 /\
     r.2 = None) /\
  (forall err, GetPods k8s {| LabelSelector_ := "" |} = Err err ->
     GetUniqueImages k8s Spec_Containers = (0, [], Some err)).
Proof.
  split.
  - intros items Hitems. unfold GetPods in Hitems. unfold GetUniqueImages. rewrite Hitems.
    rewrite GetUniqueImages_loop. cbn [fst snd].
    destruct (appendNew_spec [] (allImages Spec_Containers items))
      as (_ & _ & added & Heq & Hsub).
    cbv zeta. split_and!.
    + rewrite Z.add_0_l, allImages_length. reflexivity.
    + rewrite Heq, Z.add_0_l. cbn [app]. apply sublist_length in Hsub. lia.
    + reflexivity.
  - intros err Herr. unfold GetPods in Herr. unfold GetUniqueImages. rewrite Herr.
    reflexivity.
Qed.

Lemma GetUniqueImages_count_witness :
  (GetUniqueImages flaky flakySpec).1.1 = 5 /\
  Z.of_nat (length (GetUniqueImages flaky flakySpec).1.2) <= 5.
Proof.
  destruct (proj1 (GetUniqueImages_count flaky flakySpec) _ eq_refl) as (Hcount & Hle & _).
  cbv zeta in *. rewrite Hcount in Hle. split; [rewrite Hcount; reflexivity | exact Hle].
Defined.

(** ** The token bucket, continued *)

Lemma run_reachable (tb0 tb tb' : TokenBucket) (events : list event) :
  reachable tb0 tb -> run tb events tb' -> reachable tb0 tb'.
Proof.
  intros Hreach Hrun. induction Hrun as [tb | tb e tb1 events tb2 Hstep _ IH]; [exact Hreach|].
  apply IH. eapply reach_step; eassumption.
Qed.

Lemma occurrences_cons (e e' : event) (events : list event) :
  occurrences e (e' :: events)
  = (if decide (e' = e) then 1 else 0) + occurrences e events.
Proof.
  unfold occurrences. destruct (decide (e' = e)) as [Heq|Hne].
  - rewrite filter_cons_True by exact Heq. cbn [length]. lia.
  - rewrite filter_cons_False by exact Hne. lia.
Qed.

(** A tick the goroutine has taken and may still turn into a token. *)
Lemma run_accounts (tb tb' : TokenBucket) (events : list event) :
  let pending (g : refill) := match g with Locked | Sending => 1 | _ => 0 end in
  run tb events tb' ->
  len (tokens tb')
  = len (tokens tb) - occurrences Wait events + occurrences Refill events /\
  occurrences Refill events + pending (goroutine tb')
  <= occurrences Tick events + pending (goroutine tb).
Proof.
  intros pending Hrun.
  induction Hrun as [tb | tb e tb1 events tb2 Hstep _ [IHlen IHticks]].
  - unfold occurrences. cbn. lia.
  - rewrite !occurrences_cons.
    destruct Hstep as [tb c Hlive Hrecv | tb Hg | tb Hg | tb Hg | tb c Hg Hsend | tb Hg];
      cbn [tokens goroutine] in *.
    + unfold recv in Hrecv. destruct (Z.ltb_spec 0 (len (tokens tb))); [|discriminate].
      injection Hrecv as <-. cbn [len] in *.
      repeat (destruct (decide _); try congruence). split; lia.
    + repeat (destruct (decide _); try congruence). rewrite Hg.
      destruct (ticker_ok (rate_ tb)); cbn in *; (split; lia).
    + repeat (destruct (decide _); try congruence). rewrite Hg. cbn in *. split; lia.
    + repeat (destruct (decide _); try congruence). rewrite Hg.
      destruct (len (tokens tb) <? cap (tokens tb))%Z; cbn in *; (split; lia).
    + unfold send in Hsend.
      destruct (Z.ltb_spec (len (tokens tb)) (cap (tokens tb))); [|discriminate].
      injection Hsend as <-. cbn [len] in *.
      repeat (destruct (decide _); try congruence). rewrite Hg. cbn in *. split; lia.
    + repeat (destruct (decide _); try congruence). rewrite Hg. cbn in *. split; lia.
Qed.

(** X22. Along any run of a new bucket the tokens are accounted for:
    the count is [burst] less the waits that completed plus the sends
    of the refill; the refill sent at most once per tick; so the waits
    that completed are at most [burst] plus the number of ticks. *)
Theorem TokenBucket_rate_limit (rate burst : Z) (tb0 tb : TokenBucket) (events : list event) :
  NewTokenBucket rate burst = Some tb0 ->
  run tb0 events tb ->
  len (tokens tb) = burst - occurrences Wait events + occurrences Refill events /\
  occurrences Refill events <= occurrences Tick events /\
  occurrences Wait events <= burst + occurrences Tick events.
Proof.
  intros Hnew Hrun. rewrite NewTokenBucket_full in Hnew.
  destruct (Z.ltb_spec burst 0); [discriminate|]. injection Hnew as <-.
  destruct (run_accounts _ _ _ Hrun) as [Hlen Hticks]. cbn [tokens goroutine len] in *.
  assert (Hok : bucket_ok burst tb).
  { eapply reachable_ok; [|eapply run_reachable; [apply reach_init | exact Hrun]].
    unfold bucket_ok. cbn. split_and!; [reflexivity | lia | lia | discriminate]. }
  destruct Hok as (_ & Hbounds & _).
  assert (0 <= match goroutine tb with Locked | Sending => 1 | _ => 0 end)
    by (destruct (goroutine tb); lia).
  split_and!; lia.
Qed.

Lemma TokenBucket_rate_limit_witness :
  exists tb, run {| tokens := {| len := 5; cap := 5 |}; rate_ := 10; goroutine := Spawned |}
               [Wait; Start; Tick; Test; Refill] tb /\
             len (tokens tb) = 5.
Proof.
  eexists. split.
  - eapply run_cons; [apply step_Wait; [discriminate | reflexivity]|].
    eapply run_cons; [apply step_Start; reflexivity|].
    eapply run_cons; [apply step_Tick; reflexivity|].
    eapply run_cons; [apply step_Test; reflexivity|].
    eapply run_cons; [apply step_Refill; reflexivity|].
    apply run_nil.
  - match goal with
    | |- len (tokens ?tb) = _ =>
        assert (Hrun : run {| tokens := {| len := 5; cap := 5 |}; rate_ := 10;
                              goroutine := Spawned |}
                         [Wait; Start; Tick; Test; Refill] tb)
    end.
    { eapply run_cons; [apply step_Wait; [discriminate | reflexivity]|].
      eapply run_cons; [apply step_Start; reflexivity|].
      eapply run_cons; [apply step_Tick; reflexivity|].
      eapply run_cons; [apply step_Test; reflexivity|].
      eapply run_cons; [apply step_Refill; reflexivity|].
      apply run_nil. }
    destruct (TokenBucket_rate_limit 10 5 _ _ _ eq_refl Hrun) as (Hlen & _).
    rewrite Hlen. reflexivity.
Defined.

Lemma waits_in_a_row (n : nat) (tb : TokenBucket) :
  goroutine tb <> Panicked ->
  Z.of_nat n <= len (tokens tb) ->
  exists tb', run tb (repeat Wait n) tb' /\
              tokens tb' = {| len := len (tokens tb) - Z.of_nat n; cap := cap (tokens tb) |} /\
              goroutine tb' = goroutine tb.
Proof.
  revert tb. induction n as [|n IH]; intros tb Hlive Hn.
  - exists tb. split; [apply run_nil|]. destruct tb as [[l c] r g]. cbn.
    rewrite Z.sub_0_r. auto.
  - set (tb1 := {| tokens := {| len := len (tokens tb) - 1; cap := cap (tokens tb) |};
                   rate_ := rate_ tb; goroutine := goroutine tb |}).
    destruct (IH tb1) as (tb' & Hrun & Htokens & Hg); [exact Hlive | cbn; lia |].
    exists tb'. split_and!.
    + cbn [repeat]. eapply run_cons; [|exact Hrun].
      apply step_Wait; [exact Hlive|]. unfold recv.
      destruct (Z.ltb_spec 0 (len (tokens tb))); [reflexivity | lia].
    + rewrite Htokens. cbn. f_equal. lia.
    + rewrite Hg. reflexivity.
Qed.

(** X23. A new bucket lets [burst] waits through back to back, before
    the refill goroutine has done anything; after them the bucket is
    empty and a further wait cannot complete until the refill sends. *)
Theorem TokenBucket_burst (rate burst : Z) (tb0 : TokenBucket) :
  NewTokenBucket rate burst = Some tb0 ->
  exists tb, run tb0 (repeat Wait (Z.to_nat burst)) tb /\
             len (tokens tb) = 0 /\
             forall tb', ~ step tb Wait tb'.
Proof.
  intros Hnew. rewrite NewTokenBucket_full in Hnew.
  destruct (Z.ltb_spec burst 0); [discriminate|]. injection Hnew as <-.
  destruct (waits_in_a_row (Z.to_nat burst)
              {| tokens := {| len := burst; cap := burst |}; rate_ := rate;
                 goroutine := Spawned |}) as (tb & Hrun & Htokens & Hg).
  - discriminate.
  - cbn. lia.
  - cbn [tokens len cap] in Htokens. exists tb. split; [exact Hrun|].
    rewrite Htokens. cbn [len]. split; [lia|].
    intros tb' Hstep. inversion Hstep as [? c _ Hrecv | | | | |]; subst.
    rewrite Htokens in Hrecv. unfold recv in Hrecv. cbn [len] in Hrecv.
    destruct (Z.ltb_spec 0 (burst - Z.of_nat (Z.to_nat burst))); [lia | discriminate].
Qed.

Lemma TokenBucket_burst_witness :
  exists tb, run {| tokens := {| len := 5; cap := 5 |}; rate_ := 10; goroutine := Spawned |}
               [Wait; Wait; Wait; Wait; Wait] tb /\
             len (tokens tb) = 0 /\
             forall tb', ~ step tb Wait tb'.
Proof. apply (TokenBucket_burst 10 5 _ eq_refl). Defined.

(** X24. The send of the refill never blocks: whenever the goroutine has
    passed the length test, the channel still has room, whatever the
    callers did in between, so the goroutine always gets on and
    releases the lock. *)
Theorem TokenBucket_refill_proceeds (rate burst : Z) (tb0 tb : TokenBucket) :
  NewTokenBucket rate burst = Some tb0 ->
  reachable tb0 tb ->
  goroutine tb = Sending ->
  exists tb', step tb Refill tb' /\ goroutine tb' = Unlocking /\
              len (tokens tb') = len (tokens tb) + 1.
Proof.
  intros Hnew Hreach Hs.
  destruct (refill_never_blocks rate burst tb0 tb Hnew Hreach Hs) as [tb' Hstep].
  exists tb'. split; [exact Hstep|].
  inversion Hstep as [| | | | ? c _ Hsend |]; subst. cbn [tokens goroutine].
  unfold send in Hsend. destruct (len (tokens tb) <? cap (tokens tb))%Z; [|discriminate].
  injection Hsend as <-. split; reflexivity.
Qed.

Lemma TokenBucket_refill_proceeds_witness :
  exists tb', step {| tokens := {| len := 4; cap := 5 |}; rate_ := 10; goroutine := Sending |}
                Refill tb' /\
              goroutine tb' = Unlocking /\ len (tokens tb') = 4 + 1.
Proof.
  apply (TokenBucket_refill_proceeds 10 5 _
           {| tokens := {| len := 4; cap := 5 |}; rate_ := 10; goroutine := Sending |}
           eq_refl); [|reflexivity].
  eapply reach_step; [|apply (step_Test {| tokens := {| len := 4; cap := 5 |}; rate_ := 10;
                                            goroutine := Locked |}); reflexivity].
  eapply reach_step; [|apply (step_Tick {| tokens := {| len := 4; cap := 5 |}; rate_ := 10;
                                            goroutine := Ticking |}); reflexivity].
  eapply reach_step; [|apply (step_Start {| tokens := {| len := 4; cap := 5 |}; rate_ := 10;
                                             goroutine := Spawned |}); reflexivity].
  eapply reach_step; [apply reach_init|].
  apply (step_Wait {| tokens := {| len := 5; cap := 5 |}; rate_ := 10; goroutine := Spawned |}
           {| len := 4; cap := 5 |}); [discriminate | reflexivity].
Defined.

(** X25. The edge values of [burst].  A negative [burst] panics, and
    only that.  A [burst] of zero gives a bucket that stays empty: no
    wait on it ever completes. *)
Theorem TokenBucket_burst_edges (rate burst : Z) :
  (NewTokenBucket rate burst = None <-> burst < 0) /\
  (forall tb0 tb tb', NewTokenBucket rate 0 = Some tb0 -> reachable tb0 tb ->
                      ~ step tb Wait tb').
Proof.
  split.
  - rewrite NewTokenBucket_full. destruct (Z.ltb_spec burst 0); split; try lia; try discriminate.
    reflexivity.
  - intros tb0 tb tb' Hnew Hreach Hstep. rewrite NewTokenBucket_full in Hnew.
    cbn in Hnew. injection Hnew as <-.
    assert (Hok : bucket_ok 0 tb).
    { eapply reachable_ok; [|exact Hreach]. unfold bucket_ok. cbn.
      split_and!; [reflexivity | lia | lia | discriminate]. }
    destruct Hok as (_ & Hbounds & _).
    inversion Hstep as [? c _ Hrecv | | | | |]; subst. unfold recv in Hrecv.
    destruct (Z.ltb_spec 0 (len (tokens tb))); [lia | discriminate].
Qed.

Lemma TokenBucket_burst_edges_witness :
  NewTokenBucket 10 (-1) = None /\
  forall tb', ~ step {| tokens := {| len := 0; cap := 0 |}; rate_ := 10;
                        goroutine := Spawned |} Wait tb'.
Proof.
  split.
  - apply (proj1 (TokenBucket_burst_edges 10 (-1))). lia.
  - intros tb'. apply (proj2 (TokenBucket_burst_edges 10 0) _ _ tb' eq_refl). apply reach_init.
Defined.

(** ** One call of [exec] *)

(** X26. A call of [exec] issues exactly one remote request, stamped
    with the time and the context of the call; it only appends to the
    output buffer; the clock never goes back, and never passes a
    deadline that had not expired when the call was made. *)
Theorem exec_one_call (k8s : K8SExec) (ctx : Context) (podName containerName : string)
    (cmd : list string) (stdin : option string) (tty : bool) (st : State) :
  let r := exec k8s ctx podName containerName cmd stdin tty st in
  let c := {| call_time := clock st; call_ctx := ctx;
              call_req := execRequest k8s podName containerName cmd stdin tty |} in
  calls r.2 = (calls st ++ [c])%list /\
  r.1 = callResult k8s c /\
  stdout r.2 = stdout st ++ callOutput k8s c /\
  clock st <= clock r.2 /\
  (forall d, Deadline ctx = Some d -> clock st <= d -> clock r.2 <= d).
Proof.
  cbv zeta.
  destruct (exec_call k8s ctx podName containerName cmd stdin tty st)
    as (st' & E & Hcalls & Hout & Hclk & Hdl).
  cbv zeta in *. rewrite E. cbn [fst snd]. split_and!; first [assumption | reflexivity].
Qed.
